(** * Frame-wise violation-of-expectation engine

    A shallow embedding of [physicsvoe/framewisevoe.py]: the detector state
    [FramewiseVOE] with [record_obs], [predict], [detect], [_get_inputs],
    [_filter_inputs] and [_get_targets], the two violation classes and
    [make_voe_heatmap].

    Conventions of the embedding.
    - Python integers (frame times, object ids, the two history counts) are
      [Z]; [list.count] returns a [nat].
    - Positions and distances are floating-point tensors in the source.  They
      are kept abstract: a type [Pos] of positions, a type [D] of scalars,
      [dist] for [torch.dist] and [gtb] for the comparison [err > thresh].
    - [self.frame_history] is a Python [dict], which iterates in insertion
      order: an association list.  [self.all_ids] is a Python [set]: a
      [gset]; [list(self.all_ids)] is [elements], the order of which is as
      unspecified as the iteration order of a Python set, and no statement
      depends on it.
    - [self.net] is the external position predictor: a function [net] from the
      six tensors it is called with to the predicted positions.  Tensors of
      shape (1, N, ...) are lists of length N; the leading batch axis added by
      [unsqueeze(0)] and removed by [squeeze(0)] is not represented.
    - Methods run in a state-and-exception monad [M] over a [World]: the
      detector object together with the log of predictor invocations.

    Beyond the detector the file embeds the scene driver [full_voe] of the
    same module, with [calc_world_pos] and [show_scene] as parameters, and
    the mask helpers [squash_masks] and [prob_to_mask] of
    [physics_voe_agent.py]. *)

From Stdlib Require Import ZArith List Lia Permutation Sorted.
From stdpp Require Import base option list gmap sets.

(** ** Exceptions and outcomes *)

Inductive exn : Type :=
| AssertionError
| IndexError
| KeyError
| ValueError
| TypeError.

Inductive outcome (A : Type) : Type :=
| Ret (a : A)
| Raise (e : exn).
Arguments Ret {A} a.
Arguments Raise {A} e.

Definition obind {A B} (o : outcome A) (k : A → outcome B) : outcome B :=
  match o with
  | Ret a => k a
  | Raise e => Raise e
  end.

(** ** Data *)

(** The value stored under one time key: the tuple [(ids, pos, present)]. *)
Definition FrameInfo (Pos : Type) : Type := (list Z * list Pos * list bool)%type.

Record FramewiseVOE (Pos D : Type) : Type := mkVOE {
  frame_history : list (Z * FrameInfo Pos);
  all_ids : gset Z;
  dist_thresh : D;
  min_hist_count : Z;
  max_hist_count : Z
}.
Arguments mkVOE {Pos D}.
Arguments frame_history {Pos D}.
Arguments all_ids {Pos D}.
Arguments dist_thresh {Pos D}.
Arguments min_hist_count {Pos D}.
Arguments max_hist_count {Pos D}.

(** The arguments of one call [self.net( *in_, *tgt )]. *)
Record NetInput (Pos : Type) : Type := mkNetInput {
  obj_pos : list Pos;
  obj_ts : list Z;
  obj_ids : list Z;
  obj_mask : list bool;
  tgt_ts : list Z;
  tgt_ids : list Z
}.
Arguments mkNetInput {Pos}.
Arguments obj_pos {Pos}.
Arguments obj_ts {Pos}.
Arguments obj_ids {Pos}.
Arguments obj_mask {Pos}.
Arguments tgt_ts {Pos}.
Arguments tgt_ids {Pos}.

Inductive Violation (Pos : Type) : Type :=
| PositionViolation (object_id : Z) (pred_pos actual_pos : Pos)
| PresenceViolation (object_id : Z) (pred_pos : Pos).
Arguments PositionViolation {Pos}.
Arguments PresenceViolation {Pos}.

Definition object_id {Pos} (v : Violation Pos) : Z :=
  match v with
  | PositionViolation i _ _ => i
  | PresenceViolation i _ => i
  end.

Definition is_position {Pos} (v : Violation Pos) : bool :=
  match v with
  | PositionViolation _ _ _ => true
  | PresenceViolation _ _ => false
  end.

Definition is_presence {Pos} (v : Violation Pos) : bool :=
  match v with
  | PositionViolation _ _ _ => false
  | PresenceViolation _ _ => true
  end.

(** The detector object and the predictor invocations made so far. *)
Record World (Pos D : Type) : Type := mkWorld {
  self : FramewiseVOE Pos D;
  net_calls : list (NetInput Pos)
}.
Arguments mkWorld {Pos D}.
Arguments self {Pos D}.
Arguments net_calls {Pos D}.

(** [FramewiseVOE.__init__]. *)
Definition init {Pos D} (min_hist max_hist : Z) (thresh : D) : FramewiseVOE Pos D :=
  mkVOE [] ∅ thresh min_hist max_hist.

(** ** Python built-ins used by the source *)

(** [zip(a, b, c)]: stops at the shortest argument. *)
Fixpoint zip3 {A B C} (a : list A) (b : list B) (c : list C) : list (A * B * C) :=
  match a, b, c with
  | x :: a', y :: b', z :: c' => (x, y, z) :: zip3 a' b' c'
  | _, _, _ => []
  end.

(** [l.count(i)]. *)
Definition count (i : Z) (l : list Z) : nat := length (filter (λ j, j = i) l).

(** [l.index(i)]: position of the first occurrence. *)
Fixpoint index (i : Z) (l : list Z) : option nat :=
  match l with
  | [] => None
  | j :: l' => if decide (i = j) then Some 0 else S <$> index i l'
  end.

(** [d[k] = v] on an insertion-ordered dictionary: an existing key keeps its
    place, a new key goes last. *)
Fixpoint dict_set {V} (k : Z) (v : V) (d : list (Z * V)) : list (Z * V) :=
  match d with
  | [] => [(k, v)]
  | (k', v') :: d' => if decide (k = k') then (k, v) :: d' else (k', v') :: dict_set k v d'
  end.

(** [sorted(l, key=..., reverse=True)]: descending by key and stable, that is,
    elements with equal keys keep their original relative order.  The stable
    sorted arrangement of a list is unique, so insertion from the right
    computes the same list as Python's sort. *)
Fixpoint insert_desc {A} (key : A → Z) (x : A) (l : list A) : list A :=
  match l with
  | [] => [x]
  | y :: l' => if (key x <? key y)%Z then y :: insert_desc key x l' else x :: l
  end.

Definition sorted_reverse {A} (key : A → Z) (l : list A) : list A :=
  foldr (insert_desc key) [] l.

(** Components of an observation triple [(t, i, p)]. *)
Definition obs_time {Pos} (x : Z * Z * Pos) : Z := x.1.1.
Definition obs_id {Pos} (x : Z * Z * Pos) : Z := x.1.2.
Definition obs_pos {Pos} (x : Z * Z * Pos) : Pos := x.2.

(** ** Heat maps *)

(** What the variable [hmap] of [make_voe_heatmap] can hold: a boolean array
    or [None]. *)
Inductive pyval : Type :=
| PyNone
| PyArr (a : list (list bool)).

(** [np.zeros_like(obj_mask, dtype=bool)]. *)
Definition zeros_like (obj_mask : list (list Z)) : list (list bool) :=
  map (map (λ _, false)) obj_mask.

(** [obj_mask == object_id], element by element. *)
Definition mask_eq (obj_mask : list (list Z)) (i : Z) : list (list bool) :=
  map (map (λ m, bool_decide (m = i))) obj_mask.

(** [+] on boolean arrays of one shape is element-wise "or". *)
Definition arr_add (a b : list (list bool)) : list (list bool) :=
  zip_with (zip_with orb) a b.

(** [v.fill_heatmap(hmap, obj_mask)].  [PositionViolation] returns
    [hmap + (obj_mask == self.object_id)], which raises [TypeError] when
    [hmap] is [None]; the body of [PresenceViolation.fill_heatmap] is [pass],
    so the call evaluates to [None]. *)
Definition fill_heatmap {Pos} (v : Violation Pos) (hmap : pyval)
    (obj_mask : list (list Z)) : outcome pyval :=
  match v with
  | PositionViolation i _ _ =>
      match hmap with
      | PyArr a => Ret (PyArr (arr_add a (mask_eq obj_mask i)))
      | PyNone => Raise TypeError
      end
  | PresenceViolation _ _ => Ret PyNone
  end.

Fixpoint heatmap_loop {Pos} (viols : list (Violation Pos)) (hmap : pyval)
    (obj_mask : list (list Z)) : outcome pyval :=
  match viols with
  | [] => Ret hmap
  | v :: viols' =>
      obind (fill_heatmap v hmap obj_mask) (λ hmap', heatmap_loop viols' hmap' obj_mask)
  end.

(** [make_voe_heatmap(viols, obj_mask)]; [viols or []] turns [None] into the
    empty list. *)
Definition make_voe_heatmap {Pos} (viols : option (list (Violation Pos)))
    (obj_mask : list (list Z)) : outcome pyval :=
  heatmap_loop (default [] viols) (PyArr (zeros_like obj_mask)) obj_mask.

(** ** Concrete instances used in examples *)

(** Integer grid positions with the city-block distance, a predictor that
    answers the origin for every query id, and predictors whose answer is not
    aligned with the query. *)
Definition Vec3 : Type := (Z * Z * Z)%type.

Definition grid_dist (a b : Vec3) : Z :=
  (Z.abs (a.1.1 - b.1.1) + Z.abs (a.1.2 - b.1.2) + Z.abs (a.2 - b.2))%Z.

Definition origin : Vec3 := (0, 0, 0)%Z.

Definition stub_net (c : NetInput Vec3) : list Vec3 := map (λ _, origin) (tgt_ids c).

Definition silent_net (c : NetInput Vec3) : list Vec3 := [].

Definition eager_net (c : NetInput Vec3) : list Vec3 :=
  origin :: map (λ _, origin) (tgt_ids c).

(** ** The methods of [FramewiseVOE] *)

Section Engine.
Context {Pos D : Type}.
(** [torch.dist], the comparison [err > self.dist_thresh], and [self.net]. *)
Variable dist : Pos → Pos → D.
Variable gtb : D → D → bool.
Variable net : NetInput Pos → list Pos.

(** State and exceptions: a method maps the world before the call to its
    outcome and the world after it. *)
Definition M (A : Type) : Type := World Pos D → outcome A * World Pos D.

Definition ret {A} (a : A) : M A := λ w, (Ret a, w).
Definition raise {A} (e : exn) : M A := λ w, (Raise e, w).
Definition bind {A B} (m : M A) (k : A → M B) : M B :=
  λ w, match m w with
       | (Ret a, w') => k a w'
       | (Raise e, w') => (Raise e, w')
       end.
Definition lift {A} (o : outcome A) : M A := λ w, (o, w).

Notation "x <~ m ;; k" := (bind m (λ x, k))
  (at level 100, m at next level, right associativity).
Notation "m ;;; k" := (bind m (λ _, k))
  (at level 100, right associativity).

(** Reading an attribute of [self], assigning one, calling [self.net]. *)
Definition get_self : M (FramewiseVOE Pos D) := λ w, (Ret (self w), w).

Definition set_frame_history (h : list (Z * FrameInfo Pos)) : M unit :=
  λ w, let s := self w in
       (Ret tt, mkWorld (mkVOE h (all_ids s) (dist_thresh s)
                               (min_hist_count s) (max_hist_count s))
                        (net_calls w)).

Definition set_all_ids (ids : gset Z) : M unit :=
  λ w, let s := self w in
       (Ret tt, mkWorld (mkVOE (frame_history s) ids (dist_thresh s)
                               (min_hist_count s) (max_hist_count s))
                        (net_calls w)).

Definition call_net (c : NetInput Pos) : M (list Pos) :=
  λ w, (Ret (net c), mkWorld (self w) (net_calls w ++ [c])).

(** [record_obs(self, time, ids, pos, present)]. *)
Definition record_obs (time : Z) (ids : list Z) (pos : list Pos)
    (present : list bool) : M unit :=
  s <~ get_self ;;
  if decide (time ∈ (frame_history s).*1) then raise AssertionError
  else
    set_frame_history (dict_set time (ids, pos, present) (frame_history s)) ;;;
    s <~ get_self ;;
    set_all_ids (all_ids s ∪ list_to_set ids).

(** The two nested loops at the head of [_get_inputs]: the triples of the
    entries whose [present] flag holds, in dictionary order. *)
Definition gather_frame (time : Z) (frame_info : FrameInfo Pos)
    (acc : list Z * list Z * list Pos) : list Z * list Z * list Pos :=
  foldl (λ acc x,
           let '(time_l, id_l, pos_l) := acc in
           let '(id_, pos, present) := x in
           if negb present then acc
           else (time_l ++ [time], id_l ++ [id_], pos_l ++ [pos]))
        acc
        (zip3 frame_info.1.1 frame_info.1.2 frame_info.2).

Definition gather (h : list (Z * FrameInfo Pos)) : list Z * list Z * list Pos :=
  foldl (λ acc kv, gather_frame kv.1 kv.2 acc) ([], [], []) h.

(** [obj_valid]: a dictionary over [set(id_l)]. *)
Definition make_obj_valid (min_hist : Z) (id_l : list Z) : gmap Z bool :=
  set_to_map (λ i, (i, bool_decide (min_hist ≤ Z.of_nat (count i id_l))%Z))
             (list_to_set id_l : gset Z).

(** The loop of [_filter_inputs].  [obj_count] is a [defaultdict(int)]: a
    missing key reads as 0.  [and] evaluates [obj_valid[i]] only when the
    count test holds; a missing key there is a [KeyError]. *)
Fixpoint filter_loop (max_hist : Z) (obj_valid : gmap Z bool)
    (comb : list (Z * Z * Pos)) (obj_count : gmap Z Z)
    (new_l : list Z * list Z * list Pos) : outcome (list Z * list Z * list Pos) :=
  match comb with
  | [] => Ret new_l
  | (t, i, p) :: comb' =>
      if (default 0 (obj_count !! i) <? max_hist)%Z then
        match obj_valid !! i with
        | None => Raise KeyError
        | Some true =>
            filter_loop max_hist obj_valid comb'
              (<[i := (default 0 (obj_count !! i) + 1)%Z]> obj_count)
              (new_l.1.1 ++ [t], new_l.1.2 ++ [i], new_l.2 ++ [p])
        | Some false => filter_loop max_hist obj_valid comb' obj_count new_l
        end
      else filter_loop max_hist obj_valid comb' obj_count new_l
  end.

(** [_filter_inputs(self, time_l, id_l, pos_l)]. *)
Definition _filter_inputs (time_l id_l : list Z) (pos_l : list Pos)
    : M (list Z * list Z * list Pos) :=
  match time_l with
  | [] => ret (time_l, id_l, pos_l)
  | _ :: _ =>
      s <~ get_self ;;
      let obj_valid := make_obj_valid (min_hist_count s) id_l in
      let comb := zip3 time_l id_l pos_l in
      let comb := sorted_reverse obs_time comb in
      lift (filter_loop (max_hist_count s) obj_valid comb ∅ ([], [], []))
  end.

(** [_get_inputs(self)]: [None], or [(obj_pos, obj_ts, obj_ids, obj_mask)]. *)
Definition _get_inputs : M (option (list Pos * list Z * list Z * list bool)) :=
  s <~ get_self ;;
  let '(time_l, id_l, pos_l) := gather (frame_history s) in
  r <~ _filter_inputs time_l id_l pos_l ;;
  let '(time_l, id_l, pos_l) := r in
  if decide (length time_l = 0) then ret None
  else ret (Some (pos_l, time_l, id_l, map (λ _, true) time_l)).

(** [_get_targets(self, time)]: [(tgt_ts, tgt_ids)]. *)
Definition _get_targets (time : Z) : M (list Z * list Z) :=
  s <~ get_self ;;
  let tgt_ids := elements (all_ids s) in
  s <~ get_self ;;
  let tgt_ts := replicate (size (all_ids s)) time in
  ret (tgt_ts, tgt_ids).

(** [predict(self, time)]: [None], or [(ids_l, pred_l, mask_l)]. *)
Definition predict (time : Z) : M (option (list Z * list Pos * list bool)) :=
  in_ <~ _get_inputs ;;
  match in_ with
  | None => ret None
  | Some (o_pos, o_ts, o_ids, o_mask) =>
      tgt <~ _get_targets time ;;
      pred <~ call_net (mkNetInput o_pos o_ts o_ids o_mask tgt.1 tgt.2) ;;
      let pred_l := pred in
      let ids_l := tgt.2 in
      let mask_l := map (λ i, bool_decide (i ∈ o_ids)) ids_l in
      ret (Some (ids_l, pred_l, mask_l))
  end.

(** The loop of [detect] over [zip(pred_poss, pred_ids, pred_masks)]. *)
Fixpoint detect_loop (actual_poss : list Pos) (actual_ids : list Z)
    (preds : list (Pos * Z * bool)) (violations : list (Violation Pos))
    : M (list (Violation Pos)) :=
  match preds with
  | [] => ret violations
  | (pred_pos, pred_id, pred_mask) :: preds' =>
      if negb pred_mask then detect_loop actual_poss actual_ids preds' violations
      else if decide (pred_id ∈ actual_ids) then
        match index pred_id actual_ids with
        | None => raise ValueError
        | Some _idx =>
            match actual_poss !! _idx with
            | None => raise IndexError
            | Some actual_pos =>
                let err := dist actual_pos pred_pos in
                s <~ get_self ;;
                if gtb err (dist_thresh s) then
                  detect_loop actual_poss actual_ids preds'
                    (violations ++ [PositionViolation pred_id pred_pos actual_pos])
                else detect_loop actual_poss actual_ids preds' violations
            end
        end
      else
        detect_loop actual_poss actual_ids preds'
          (violations ++ [PresenceViolation pred_id pred_pos])
  end.

(** [detect(self, time, actual_poss, actual_ids)]. *)
Definition detect (time : Z) (actual_poss : list Pos) (actual_ids : list Z)
    : M (option (list (Violation Pos))) :=
  pred_info <~ predict time ;;
  match pred_info with
  | None => ret None
  | Some (pred_ids, pred_poss, pred_masks) =>
      violations <~ detect_loop actual_poss actual_ids
                      (zip3 pred_poss pred_ids pred_masks) [] ;;
      ret (Some violations)
  end.

(** A sequence of [record_obs] calls, stopping at the first exception. *)
Definition RecordCall : Type := (Z * list Z * list Pos * list bool)%type.

Fixpoint record_all (calls : list RecordCall) : M unit :=
  match calls with
  | [] => ret tt
  | (time, ids, pos, present) :: calls' =>
      record_obs time ids pos present ;;; record_all calls'
  end.

(** *** Descriptions used in the statements *)

(** A computation that leaves the detector object as it found it, and one
    that in addition makes no predictor call. *)
Definition keeps_self {A} (m : M A) : Prop := ∀ w : World Pos D, self (m w).2 = self w.
Definition quiet {A} (m : M A) : Prop := ∀ w : World Pos D, (m w).2 = w.

(** The ids passed by a sequence of calls. *)
Definition ids_passed (calls : list RecordCall) : gset Z :=
  ⋃ (map (λ c : RecordCall, list_to_set c.1.1.2) calls).

(** The value [_get_inputs] builds from the filter output [out]. *)
Definition inputs_of (out : list (Z * Z * Pos)) : option (list Pos * list Z * list Z * list bool) :=
  if decide (length (map obs_time out) = 0) then None
  else Some (map obs_pos out, map obs_time out, map obs_id out,
             map (λ _, true) (map obs_time out)).

(** The one predictor call of [predict]. *)
Definition net_input (w : World Pos D) (time : Z) (in_ : list Pos * list Z * list Z * list bool)
    : NetInput Pos :=
  mkNetInput in_.1.1.1 in_.1.1.2 in_.1.2 in_.2
             (replicate (size (all_ids (self w))) time) (elements (all_ids (self w))).

(** The entries [detect] iterates over, for the predictor call [c]. *)
Definition pred_entries (c : NetInput Pos) : list (Pos * Z * bool) :=
  zip3 (net c) (tgt_ids c) (map (λ i, bool_decide (i ∈ obj_ids c)) (tgt_ids c)).

End Engine.

(** ** An example scene *)

(** A detector with [min_hist_count = 3], [max_hist_count = 8] and threshold
    0 on the grid; object 1 recorded at the origin at times 0 to 4; object 2
    recorded once, at time 4, so that it is in the registry without being
    eligible. *)
Definition fresh_world : World Vec3 Z := mkWorld (init 3 8 0%Z) [].

Definition scene_calls : list (@RecordCall Vec3) :=
  [(0, [1], [origin], [true]); (1, [1], [origin], [true]);
   (2, [1], [origin], [true]); (3, [1], [origin], [true]);
   (4, [1; 2], [origin; origin], [true; true])]%Z.

Definition scene_world : World Vec3 Z := (record_all scene_calls fresh_world).2.

(** The value [_get_inputs] returns in [scene_world]. *)
Definition scene_inputs : list Vec3 * list Z * list Z * list bool :=
  ([origin; origin; origin; origin; origin], [4; 3; 2; 1; 0]%Z, [1; 1; 1; 1; 1]%Z,
   [true; true; true; true; true]).

(** Pixel [(r, c)] of a two-dimensional array. *)
Definition pixel {A} (a : list (list A)) (r c : nat) : option A :=
  a !! r ≫= (.!! c).

(** ** The scene driver [full_voe] *)

(** What [full_voe] writes: the line [print(f'Frame {frame_num}')], one line
    [print(v.describe())] per violation from [output_voe], and the figure of
    [show_scene].  A description line is kept as the violation it
    describes. *)
Inductive Output (Pos : Type) : Type :=
| FrameLine (frame_num : Z)
| Description (v : Violation Pos)
| Figure (frame_num : Z) (hmap : pyval).
Arguments FrameLine {Pos}.
Arguments Description {Pos}.
Arguments Figure {Pos}.

(** [output_voe(viols)]; [viols or []] turns [None] into the empty list. *)
Definition output_voe {Pos} (viols : option (list (Violation Pos))) : list (Output Pos) :=
  map Description (default [] viols).

(** The fields of [data] that [full_voe] reads; of [data.objs] only the
    length is used. *)
Record SceneData (Depth : Type) : Type := mkSceneData {
  objs : list unit;
  scene_depth : list Depth;
  scene_idxs : list (list (list Z))
}.
Arguments mkSceneData {Depth}.
Arguments objs {Depth}.
Arguments scene_depth {Depth}.
Arguments scene_idxs {Depth}.

Section Driver.
Context {Pos D Depth : Type}.
Variable dist : Pos → Pos → D.
Variable gtb : D → D → bool.
Variable net : NetInput Pos → list Pos.
(** [calc_world_pos(depth, masks, DEFAULT_CAMERA)], which rests on
    [depthutils], and [show_scene(frame, depth, hmap)], which plots: both are
    taken as given, and either may raise.  [thresh] is the float [0.8]. *)
Variable calc_world_pos :
  Depth → list (list Z) → outcome (list Z * list Pos * list bool).
Variable show_scene : Z → Depth → pyval → outcome unit.
Variable thresh : D.

(** The loop of [full_voe] over the frame numbers still to come, from the
    detector [w] and the output written so far. *)
Fixpoint full_voe_loop (data : SceneData Depth) (frames : list nat)
    (w : World Pos D) (out : list (Output Pos))
    : outcome unit * World Pos D * list (Output Pos) :=
  match frames with
  | [] => (Ret tt, w, out)
  | n :: frames' =>
      let frame_num := Z.of_nat n in
      let out := out ++ [FrameLine frame_num] in
      match scene_depth data !! n with
      | None => (Raise IndexError, w, out)
      | Some depth =>
          match scene_idxs data !! n with
          | None => (Raise IndexError, w, out)
          | Some masks =>
              match calc_world_pos depth masks with
              | Raise e => (Raise e, w, out)
              | Ret (obj_ids, obj_pos, obj_present) =>
                  match detect dist gtb net frame_num obj_pos obj_ids w with
                  | (Raise e, w1) => (Raise e, w1, out)
                  | (Ret viols, w1) =>
                      match make_voe_heatmap viols masks with
                      | Raise e => (Raise e, w1, out)
                      | Ret voe_hmap =>
                          let out := out ++ output_voe viols in
                          match show_scene frame_num depth voe_hmap with
                          | Raise e => (Raise e, w1, out)
                          | Ret _ =>
                              let out := out ++ [Figure frame_num voe_hmap] in
                              match record_obs frame_num obj_ids obj_pos obj_present w1 with
                              | (Raise e, w2) => (Raise e, w2, out)
                              | (Ret _, w2) => full_voe_loop data frames' w2 out
                              end
                          end
                      end
                  end
              end
          end
      end
  end.

(** [full_voe(data)]: a fresh detector with [min_hist_count=3],
    [max_hist_count=8], and the frames [range(len(data.objs))]. *)
Definition full_voe (data : SceneData Depth)
    : outcome unit * World Pos D * list (Output Pos) :=
  full_voe_loop data (seq 0 (length (objs data))) (mkWorld (init 3 8 thresh) []) [].

(** *** Descriptions used in the statements *)

(** The record [full_voe] stores for frame [n]: the result of
    [calc_world_pos] on the depth map and the mask of that frame, under the
    key [n]. *)
Definition frame_record (data : SceneData Depth) (n : nat)
    (rec : Z * FrameInfo Pos) : Prop :=
  ∃ depth masks,
    scene_depth data !! n = Some depth ∧ scene_idxs data !! n = Some masks ∧
    calc_world_pos depth masks = Ret rec.2 ∧ rec.1 = Z.of_nat n.

(** The ids of a list of records. *)
Definition record_ids (recs : list (Z * FrameInfo Pos)) : gset Z :=
  ⋃ ((λ rec : Z * FrameInfo Pos, list_to_set rec.2.1.1) <$> recs).

(** The exceptions [full_voe] can end with: an index or type error of its
    own, or whatever [calc_world_pos] or [show_scene] raise. *)
Definition full_voe_exception (e : exn) : Prop :=
  e = IndexError ∨ e = TypeError ∨
  (∃ depth masks, calc_world_pos depth masks = Raise e) ∨
  (∃ frame_num depth hmap, show_scene frame_num depth hmap = Raise e).

End Driver.

(** A scene of two frames, each showing object 1 at the origin, with a world
    position routine and a plot that succeed. *)
Definition two_frames : SceneData unit :=
  mkSceneData [(); ()] [(); ()] [[[1%Z]]; [[1%Z]]].

Definition still_object (depth : unit) (masks : list (list Z))
    : outcome (list Z * list Vec3 * list bool) :=
  Ret ([1%Z], [origin], [true]).

Definition silent_plot (frame_num : Z) (depth : unit) (hmap : pyval) : outcome unit :=
  Ret tt.

(** ** The agent's mask helpers *)

(** Two-dimensional arrays are lists of rows; the shape of an array is the
    list of its row lengths. *)
Definition shape {A} (a : list (list A)) : list nat := map length a.

(** [a[m] = v] for a boolean mask [m]: the pixels where [m] holds are set to
    [v]; a mask of another shape is an [IndexError]. *)
Definition bool_assign (a : list (list Z)) (m : list (list bool)) (v : Z)
    : outcome (list (list Z)) :=
  if decide (shape m = shape a)
  then Ret (zip_with (zip_with (λ x (b : bool), if b then v else x)) a m)
  else Raise IndexError.

Fixpoint squash_loop (pairs : list (list (list bool) * Z)) (flat_mask : list (list Z))
    : outcome (list (list Z)) :=
  match pairs with
  | [] => Ret flat_mask
  | (m, id_) :: pairs' => obind (bool_assign flat_mask m id_) (squash_loop pairs')
  end.

(** [squash_masks(ref, mask_l, ids)] of [physics_voe_agent.py]:
    [np.ones_like(ref) * -1], then one assignment per pair of
    [zip(mask_l, ids)]. *)
Definition squash_masks {A} (ref : list (list A)) (mask_l : list (list (list bool)))
    (ids : list Z) : outcome (list (list Z)) :=
  squash_loop (zip mask_l ids) (map (map (λ _, (-1)%Z)) ref).

(** [prob_to_mask(prob, cutoff, obj_scores)] of [physics_voe_agent.py], from
    the two [argmax] results on: [shape0] is [prob.shape[0]],
    [obj_pred_class] is [obj_scores.argmax(-1)] and [am] is
    [np.argmax(prob, axis=0)].  [out_mask] has the shape of [am], so the
    masked assignments cannot fail. *)
Definition valid_ids (shape0 cutoff : Z) (obj_pred_class : list Z) : list Z :=
  omap (λ x : Z * Z, if decide (x.2 = 1%Z) then Some (x.1 + cutoff)%Z else None)
       (zip (seqZ cutoff (shape0 - cutoff)) obj_pred_class).

Definition relabel (out_mask am : list (list Z)) (out_id : nat) (mask_id cutoff : Z)
    : list (list Z) :=
  zip_with (zip_with (λ o a, if decide (a = (mask_id - cutoff)%Z) then Z.of_nat out_id else o))
           out_mask am.

Fixpoint relabel_loop (ids : list Z) (out_id : nat) (cutoff : Z)
    (out_mask am : list (list Z)) : list (list Z) :=
  match ids with
  | [] => out_mask
  | mask_id :: ids' =>
      relabel_loop ids' (S out_id) cutoff (relabel out_mask am out_id mask_id cutoff) am
  end.

Definition prob_to_mask (shape0 cutoff : Z) (obj_pred_class : list Z)
    (am : list (list Z)) : list (list Z) :=
  relabel_loop (valid_ids shape0 cutoff obj_pred_class) 0 cutoff
               (map (map (λ _, (-1)%Z)) am) am.

(** What the loop of [prob_to_mask] does to one pixel that holds [o] and
    whose [argmax] channel is [a]. *)
Fixpoint relabel_px (ids : list Z) (out_id : nat) (cutoff o a : Z) : Z :=
  match ids with
  | [] => o
  | mask_id :: ids' =>
      relabel_px ids' (S out_id) cutoff
        (if decide (a = (mask_id - cutoff)%Z) then Z.of_nat out_id else o) a
  end.

(** The label [prob_to_mask] gives to a pixel whose [argmax] channel is [a]:
    the number of object-classified channels before [a] when [a] is a
    channel from [cutoff] on that is classified as an object (class 1), and
    -1 otherwise. *)
Definition channel_label (shape0 cutoff : Z) (obj_pred_class : list Z) (a : Z) : Z :=
  if decide (cutoff ≤ a < shape0)%Z then
    match obj_pred_class !! Z.to_nat (a - cutoff) with
    | Some cls =>
        if decide (cls = 1%Z)
        then Z.of_nat (count 1 (take (Z.to_nat (a - cutoff)) obj_pred_class))
        else (-1)%Z
    | None => (-1)%Z
    end
  else (-1)%Z.

(** ** Eligibility *)

(** An object id is eligible in a state when [max_hist_count] is positive and
    the id has at least [min_hist_count], and at least one, gathered
    observations. *)
Definition eligible {Pos D} (w : World Pos D) (i : Z) : Prop :=
  let n := Z.of_nat (count i (gather (frame_history (self w))).1.2) in
  (0 < max_hist_count (self w) ∧ min_hist_count (self w) ≤ n ∧ 0 < n)%Z.

(** Whether some violation of a sequence carries the object id [m]. *)
Definition hit {Pos} (viols : list (Violation Pos)) (m : Z) : bool :=
  existsb (λ v, bool_decide (m = object_id v)) viols.

(** Every id of every recorded frame is in the registry. *)
Definition registry_covers {Pos D} (w : World Pos D) : Prop :=
  ∀ kv i, kv ∈ frame_history (self w) → i ∈ kv.2.1.1 → i ∈ all_ids (self w).

(** ** Reference descriptions used in the statements *)

(** The three parallel lists of a list of triples. *)
Definition unzip3 {Pos} (l : list (Z * Z * Pos)) : list Z * list Z * list Pos :=
  (map obs_time l, map obs_id l, map obs_pos l).

(** The observations of one frame and of a whole history whose [present] flag
    holds, as triples [(time, id, pos)]. *)
Definition frame_obs {Pos} (time : Z) (frame_info : FrameInfo Pos) : list (Z * Z * Pos) :=
  omap (λ x : Z * Pos * bool, if x.2 then Some (time, x.1.1, x.1.2) else None)
       (zip3 frame_info.1.1 frame_info.1.2 frame_info.2).

Definition observations {Pos} (h : list (Z * FrameInfo Pos)) : list (Z * Z * Pos) :=
  h ≫= λ kv, frame_obs kv.1 kv.2.

(** Descending order of the time keys, and the observations of one object. *)
Definition key_desc {A} (key : A → Z) (l : list A) : Prop :=
  StronglySorted (λ x y, (key y ≤ key x)%Z) l.

Definition of_object {Pos} (i : Z) (l : list (Z * Z * Pos)) : list (Z * Z * Pos) :=
  filter (λ x, obs_id x = i) l.

(** What one entry of [zip(pred_poss, pred_ids, pred_masks)] adds to
    [violations] in a run of [detect] that does not raise. *)
Definition emitted {Pos D} (dist : Pos → Pos → D) (gtb : D → D → bool) (thresh : D)
    (actual_poss : list Pos) (actual_ids : list Z) (x : Pos * Z * bool)
    : list (Violation Pos) :=
  if negb x.2 then []
  else if decide (x.1.2 ∈ actual_ids) then
    match index x.1.2 actual_ids ≫= (actual_poss !!.) with
    | Some actual_pos =>
        if gtb (dist actual_pos x.1.1) thresh
        then [PositionViolation x.1.2 x.1.1 actual_pos] else []
    | None => []
    end
  else [PresenceViolation x.1.2 x.1.1].

(** ** Facts about the built-ins *)

Section Builtins.
Context {A : Type} (key : A → Z).

Lemma insert_desc_perm x l : insert_desc key x l ≡ₚ x :: l.
Proof.
  induction l as [|y l IH]; simpl; [done|].
  destruct (key x <? key y)%Z; [|done].
  rewrite IH. apply Permutation_swap.
Qed.

Lemma sorted_reverse_perm l : sorted_reverse key l ≡ₚ l.
Proof.
  induction l as [|x l IH]; simpl; [done|].
  rewrite insert_desc_perm. by f_equiv.
Qed.

Lemma insert_desc_sorted x l : key_desc key l → key_desc key (insert_desc key x l).
Proof.
  unfold key_desc. induction 1 as [|y l Hl IH Hy]; simpl.
  - repeat constructor.
  - destruct (key x <? key y)%Z eqn:Hlt.
    + apply Z.ltb_lt in Hlt. constructor; [done|].
      rewrite insert_desc_perm. constructor; [lia|done].
    + apply Z.ltb_ge in Hlt. constructor; [by constructor|].
      constructor; [done|]. eapply Forall_impl; [exact Hy|]. simpl. lia.
Qed.

Lemma sorted_reverse_sorted l : key_desc key (sorted_reverse key l).
Proof.
  induction l as [|x l IH]; simpl; [constructor|]. by apply insert_desc_sorted.
Qed.

(** Stability: among the elements of one key the original order is kept. *)
Lemma filter_key_insert_desc k x l :
  filter (λ y, key y = k) (insert_desc key x l) =
  filter (λ y, key y = k) (x :: l).
Proof.
  induction l as [|y l IH]; simpl; [done|].
  destruct (key x <? key y)%Z eqn:Hlt; [|done].
  apply Z.ltb_lt in Hlt.
  rewrite (filter_cons _ y), IH, !(filter_cons _ x), (filter_cons _ y).
  destruct (decide (key x = k)), (decide (key y = k)); try done. lia.
Qed.

Lemma sorted_reverse_stable k l :
  filter (λ y, key y = k) (sorted_reverse key l) = filter (λ y, key y = k) l.
Proof.
  induction l as [|x l IH]; simpl; [done|].
  rewrite filter_key_insert_desc, !(filter_cons _ x), IH. done.
Qed.

(** Two descending lists with the same elements of every key, in the same
    order, are equal: the stable descending arrangement is unique. *)
Lemma key_desc_stable_unique l1 l2 :
  key_desc key l1 → key_desc key l2 →
  (∀ k, filter (λ y, key y = k) l1 = filter (λ y, key y = k) l2) →
  l1 = l2.
Proof.
  unfold key_desc. intros H1. revert l2.
  induction H1 as [|x l1 Hl1 IH Hx]; intros l2 H2 Heq.
  - destruct l2 as [|y l2]; [done|].
    specialize (Heq (key y)). rewrite filter_nil, filter_cons_True in Heq; done.
  - destruct H2 as [|y l2 Hl2 Hy].
    { specialize (Heq (key x)). rewrite filter_nil, filter_cons_True in Heq; done. }
    assert (key y ≤ key x)%Z as Hyx.
    { pose proof (Heq (key y)) as E. rewrite (filter_cons_True _ y) in E; [|done].
      assert (y ∈ filter (λ z, key z = key y) (x :: l1)) as Hin
        by (rewrite E; left).
      apply list_elem_of_filter in Hin as [_ Hin].
      apply elem_of_cons in Hin as [->|Hin]; [lia|].
      rewrite Forall_forall in Hx. by apply Hx. }
    assert (key x ≤ key y)%Z as Hxy.
    { pose proof (Heq (key x)) as E. rewrite (filter_cons_True _ x) in E; [|done].
      assert (x ∈ filter (λ z, key z = key x) (y :: l2)) as Hin
        by (rewrite <- E; left).
      apply list_elem_of_filter in Hin as [_ Hin].
      apply elem_of_cons in Hin as [->|Hin]; [lia|].
      rewrite Forall_forall in Hy. by apply Hy. }
    assert (x = y) as ->.
    { pose proof (Heq (key x)) as E.
      rewrite !filter_cons_True in E by lia. by injection E. }
    f_equal. apply IH; [done|]. intros k. specialize (Heq k).
    rewrite !(filter_cons _ y) in Heq. destruct (decide (key y = k)); [|done].
    by injection Heq.
Qed.

(** Hence any sort that is descending and stable agrees with
    [sorted_reverse]. *)
Lemma sorted_reverse_unique l l' :
  key_desc key l' →
  (∀ k, filter (λ y, key y = k) l' = filter (λ y, key y = k) l) →
  l' = sorted_reverse key l.
Proof.
  intros Hs Hst. apply key_desc_stable_unique; [done|apply sorted_reverse_sorted|].
  intros k. by rewrite Hst, sorted_reverse_stable.
Qed.
Lemma key_desc_filter (P : A → Prop) `{!∀ x, Decision (P x)} (l : list A) :
  key_desc key l → key_desc key (filter P l).
Proof.
  unfold key_desc. induction 1 as [|x l Hl IH Hx]; [constructor|].
  rewrite filter_cons. destruct (decide (P x)); [|done].
  constructor; [done|]. rewrite Forall_forall in Hx |- *.
  intros y Hy. apply list_elem_of_filter in Hy as [_ Hy]. by apply Hx.
Qed.

Lemma filter_swap (P Q : A → Prop) `{!∀ x, Decision (P x), !∀ x, Decision (Q x)}
    (l : list A) :
  filter P (filter Q l) = filter Q (filter P l).
Proof.
  rewrite !list_filter_filter. apply list_filter_iff. intros x. tauto.
Qed.

(** Sorting and then selecting is selecting and then sorting. *)
Lemma filter_sorted_reverse (P : A → Prop) `{!∀ x, Decision (P x)} (l : list A) :
  filter P (sorted_reverse key l) = sorted_reverse key (filter P l).
Proof.
  apply sorted_reverse_unique.
  - apply key_desc_filter, sorted_reverse_sorted.
  - intros k. by rewrite filter_swap, sorted_reverse_stable, filter_swap.
Qed.
End Builtins.

Lemma zip3_unzip3 {Pos} (l : list (Z * Z * Pos)) :
  zip3 (map obs_time l) (map obs_id l) (map obs_pos l) = l.
Proof.
  induction l as [|[[t i] p] l IH]; simpl; [done|]. by rewrite IH.
Qed.

Lemma count_map_obs_id {Pos} i (l : list (Z * Z * Pos)) :
  count i (map obs_id l) = length (of_object i l).
Proof.
  unfold count, of_object. induction l as [|x l IH]; simpl; [done|].
  rewrite !filter_cons. destruct (decide (obs_id x = i)); simpl; by rewrite IH.
Qed.

Lemma filter_all {A} (P : A → Prop) `{!∀ x, Decision (P x)} (l : list A) :
  (∀ x, x ∈ l → P x) → filter P l = l.
Proof.
  induction l as [|x l IH]; intros Hall; [done|].
  rewrite filter_cons_True by (apply Hall; left).
  f_equal. apply IH. intros y Hy. apply Hall. by right.
Qed.

Lemma filter_none {A} (P : A → Prop) `{!∀ x, Decision (P x)} (l : list A) :
  (∀ x, x ∈ l → ¬ P x) → filter P l = [].
Proof.
  induction l as [|x l IH]; intros Hall; [done|].
  rewrite filter_cons_False by (apply Hall; left).
  apply IH. intros y Hy. apply Hall. by right.
Qed.

Lemma lookup_zip3 {A B C} (a : list A) (b : list B) (c : list C) k :
  zip3 a b c !! k =
  match a !! k, b !! k, c !! k with
  | Some x, Some y, Some z => Some (x, y, z)
  | _, _, _ => None
  end.
Proof.
  revert b c k. induction a as [|x a IH]; intros [|y b] [|z c] [|k]; simpl;
    rewrite ?IH; repeat case_match; done.
Qed.

Lemma elem_of_zip3_mid {A B C} (a : list A) (b : list B) (c : list C) x :
  x ∈ zip3 a b c → x.1.2 ∈ b.
Proof.
  intros Hx. apply list_elem_of_lookup in Hx as [k Hk].
  rewrite lookup_zip3 in Hk.
  destruct (a !! k), (b !! k) eqn:Eb, (c !! k); try done.
  injection Hk as <-. simpl. by eapply list_elem_of_lookup_2.
Qed.

(** With distinct middle components, the entries of a [zip] whose middle
    component is [i] are one entry at most. *)
Lemma filter_zip3_NoDup {A C} (a : list A) (b : list Z) (c : list C) x :
  NoDup b → x ∈ zip3 a b c →
  filter (λ y, y.1.2 = x.1.2) (zip3 a b c) = [x].
Proof.
  intros Hnd. revert a c.
  induction Hnd as [|j b Hj Hnd IH]; intros [|x0 a] [|m0 c] Hx; simpl in *;
    try by apply elem_of_nil in Hx.
  assert (∀ y, j ∉ b → y ∈ zip3 a b c → y.1.2 ≠ j) as Hfresh.
  { intros y Hnot Hy Heq. apply Hnot. rewrite <- Heq.
    by apply (elem_of_zip3_mid a b c). }
  apply elem_of_cons in Hx as [->|Hx].
  - rewrite filter_cons_True by done. f_equal. simpl.
    apply elem_of_nil_inv. intros y Hy. apply list_elem_of_filter in Hy as [Hy1 Hy2].
    by eapply Hfresh.
  - rewrite filter_cons_False; [by apply IH|]. simpl. intros Heq.
    by eapply (Hfresh x).
Qed.

Lemma index_elem_of i l : i ∈ l → ∃ n, index i l = Some n ∧ l !! n = Some i.
Proof.
  induction l as [|j l IH]; intros Hin; [by apply elem_of_nil in Hin|].
  simpl. destruct (decide (i = j)) as [->|Hne]; [by exists 0|].
  apply elem_of_cons in Hin as [?|Hin]; [done|].
  destruct (IH Hin) as (n & -> & Hn). by exists (S n).
Qed.

(** ** The history filter *)

Section Filter.
Context {Pos D : Type}.
Implicit Types (l comb out : list (Z * Z * Pos)) (w : World Pos D).

Lemma unzip3_snoc l (x : Z * Z * Pos) :
  unzip3 (l ++ [x]) =
  ((unzip3 l).1.1 ++ [obs_time x], (unzip3 l).1.2 ++ [obs_id x], (unzip3 l).2 ++ [obs_pos x]).
Proof. unfold unzip3. simpl. by rewrite !map_app. Qed.

Lemma gather_frame_spec time (frame_info : FrameInfo Pos) l :
  gather_frame time frame_info (unzip3 l) = unzip3 (l ++ frame_obs time frame_info).
Proof.
  unfold gather_frame, frame_obs.
  generalize (zip3 frame_info.1.1 frame_info.1.2 frame_info.2). intros z.
  revert l. induction z as [|[[i p] b] z IH]; intros l; simpl.
  - by rewrite app_nil_r.
  - destruct b; simpl.
    + change (map obs_time l ++ [time], map obs_id l ++ [i], map obs_pos l ++ [p])
        with ((unzip3 l).1.1 ++ [obs_time (time, i, p)],
              (unzip3 l).1.2 ++ [obs_id (time, i, p)],
              (unzip3 l).2 ++ [obs_pos (time, i, p)]).
      rewrite <- unzip3_snoc, IH. by rewrite <- app_assoc.
    + apply IH.
Qed.

(** [_get_inputs] gathers exactly the present observations, in order. *)
Lemma gather_spec (h : list (Z * FrameInfo Pos)) : gather h = unzip3 (observations h).
Proof.
  unfold gather, observations.
  change ([], [], []) with (unzip3 (@nil (Z * Z * Pos))).
  rewrite <- (app_nil_l (h ≫= _)). generalize (@nil (Z * Z * Pos)).
  induction h as [|[t fi] h IH]; intros l; simpl.
  - by rewrite app_nil_r.
  - rewrite gather_frame_spec, IH. by rewrite <- app_assoc.
Qed.

Lemma lookup_make_obj_valid (min_hist : Z) (id_l : list Z) i :
  make_obj_valid min_hist id_l !! i =
  if decide (i ∈ id_l)
  then Some (bool_decide (min_hist ≤ Z.of_nat (count i id_l))%Z)
  else None.
Proof.
  unfold make_obj_valid. destruct (decide (i ∈ id_l)) as [Hin|Hin].
  - apply lookup_set_to_map; [naive_solver|].
    exists i. split; [by apply elem_of_list_to_set|done].
  - apply eq_None_not_Some. intros [b Hb].
    apply lookup_set_to_map in Hb; [|naive_solver].
    destruct Hb as (j & Hj & [= -> _]). by apply elem_of_list_to_set in Hj.
Qed.

(** The loop keeps, for each valid object, its first entries of [comb]
    until the object's counter reaches [max_hist], and nothing else. *)
Lemma filter_loop_spec (max_hist : Z) (obj_valid : gmap Z bool) comb :
  (∀ x, x ∈ comb → is_Some (obj_valid !! obs_id x)) →
  ∀ (obj_count : gmap Z Z) l,
  ∃ out,
    filter_loop max_hist obj_valid comb obj_count (unzip3 l) = Ret (unzip3 (l ++ out)) ∧
    ∀ i, of_object i out =
         if decide (obj_valid !! i = Some true)
         then take (Z.to_nat (max_hist - default 0%Z (obj_count !! i))) (of_object i comb)
         else [].
Proof.
  unfold of_object.
  induction comb as [|[[t i] p] comb IH]; intros Hdom obj_count l.
  - exists []. simpl. rewrite app_nil_r. split; [done|].
    intros j. rewrite filter_nil, take_nil. by case_decide.
  - assert (∀ x, x ∈ comb → is_Some (obj_valid !! obs_id x)) as Hdom'
      by (intros x Hx; apply Hdom; by right).
    destruct (Hdom (t, i, p)) as [b Hb]; [left|]. unfold obs_id in Hb. simpl in Hb.
    simpl. destruct (default 0%Z (obj_count !! i) <? max_hist)%Z eqn:Hlt.
    + apply Z.ltb_lt in Hlt. rewrite Hb. destruct b.
      * destruct (IH Hdom' (<[i:=(default 0 (obj_count !! i) + 1)%Z]> obj_count)
                     (l ++ [(t, i, p)])) as (out & Hrun & Hout).
        exists ((t, i, p) :: out). split.
        { rewrite <- app_assoc, unzip3_snoc in Hrun. exact Hrun. }
        intros j. specialize (Hout j). rewrite !(filter_cons _ (t, i, p)).
        change (obs_id (t, i, p)) with i.
        destruct (decide (i = j)) as [->|Hne].
        -- rewrite Hout, lookup_insert_eq. simpl. rewrite !decide_True by done.
           replace (Z.to_nat (max_hist - default 0%Z (obj_count !! j)))
             with (S (Z.to_nat (max_hist - (default 0%Z (obj_count !! j) + 1)))) by lia.
           done.
        -- rewrite Hout, lookup_insert_ne by done. done.
      * destruct (IH Hdom' obj_count l) as (out & Hrun & Hout).
        exists out. split; [done|]. intros j. specialize (Hout j).
        rewrite (filter_cons _ (t, i, p)). change (obs_id (t, i, p)) with i.
        destruct (decide (i = j)) as [->|Hne]; [|done].
        rewrite Hout, !decide_False; [done|congruence|congruence].
    + apply Z.ltb_ge in Hlt.
      destruct (IH Hdom' obj_count l) as (out & Hrun & Hout).
      exists out. split; [done|]. intros j. specialize (Hout j).
      rewrite (filter_cons _ (t, i, p)). change (obs_id (t, i, p)) with i.
      destruct (decide (i = j)) as [->|Hne]; [|done].
      rewrite Hout. case_decide; [|done].
      by replace (Z.to_nat (max_hist - default 0%Z (obj_count !! j))) with 0 by lia.
Qed.

Lemma filter_inputs_run w (time_l id_l : list Z) (pos_l : list Pos) :
  time_l ≠ [] →
  _filter_inputs time_l id_l pos_l w =
  (filter_loop (max_hist_count (self w))
     (make_obj_valid (min_hist_count (self w)) id_l)
     (sorted_reverse obs_time (zip3 time_l id_l pos_l)) ∅ ([], [], []), w).
Proof. by destruct time_l. Qed.

(** On the triples of a list [l], [_filter_inputs] returns without raising
    and leaves the world as it was.  For every object the result holds the
    first [max_hist_count] of its entries in the time-descending stable
    arrangement of [l] when the object occurs at least [min_hist_count]
    times, and none of its entries otherwise. *)
Lemma filter_inputs_spec w l :
  ∃ out,
    _filter_inputs (unzip3 l).1.1 (unzip3 l).1.2 (unzip3 l).2 w = (Ret (unzip3 out), w) ∧
    ∀ i, of_object i out =
         if decide (min_hist_count (self w) ≤ Z.of_nat (length (of_object i l)))%Z
         then take (Z.to_nat (max_hist_count (self w)))
                   (of_object i (sorted_reverse obs_time l))
         else [].
Proof.
  destruct l as [|x l].
  - exists []. split; [done|]. intros i. unfold of_object. simpl.
    rewrite filter_nil, take_nil. by case_decide.
  - remember (x :: l) as l0 eqn:El0.
    destruct (filter_loop_spec (max_hist_count (self w))
                (make_obj_valid (min_hist_count (self w)) (map obs_id l0))
                (sorted_reverse obs_time l0)) with (obj_count := (∅ : gmap Z Z))
                (l := @nil (Z * Z * Pos)) as (out & Hrun & Hout).
    { intros y Hy. rewrite lookup_make_obj_valid, decide_True; [done|].
      rewrite sorted_reverse_perm in Hy. apply list_elem_of_fmap. by exists y. }
    exists out. split.
    { unfold unzip3. cbn [fst snd]. rewrite filter_inputs_run by (by subst l0).
      rewrite zip3_unzip3. f_equal. exact Hrun. }
    intros i. rewrite Hout, lookup_empty. simpl. rewrite Z.sub_0_r.
    rewrite lookup_make_obj_valid, count_map_obs_id.
    destruct (decide (i ∈ map obs_id l0)) as [Hin|Hin].
    + destruct (decide (min_hist_count (self w) ≤ Z.of_nat (length (of_object i l0)))%Z).
      * by rewrite decide_True by (by rewrite bool_decide_eq_true_2).
      * by rewrite decide_False by (rewrite bool_decide_eq_false_2; done).
    + rewrite decide_False by done.
      assert (of_object i (sorted_reverse obs_time l0) = []) as ->.
      { apply elem_of_nil_inv. intros y Hy. apply Hin.
        apply list_elem_of_filter in Hy as [<- Hy].
        rewrite sorted_reverse_perm in Hy. apply list_elem_of_fmap. by exists y. }
      rewrite take_nil. by case_decide.
Qed.

(** C1.  For every recorded history, the output of the history filter
    ([_filter_inputs] on the present triples gathered by [_get_inputs])
    holds at most [max_hist_count] observations of any object id, and none
    of an object id that has fewer than [min_hist_count] present
    observations over all recorded times.  [max_hist_count] is a count,
    taken non-negative. *)
Theorem filter_cap w :
  (0 ≤ max_hist_count (self w))%Z →
  let g := gather (frame_history (self w)) in
  ∃ new_l,
    _filter_inputs g.1.1 g.1.2 g.2 w = (Ret new_l, w) ∧
    ∀ i,
      (Z.of_nat (count i new_l.1.2) ≤ max_hist_count (self w))%Z ∧
      ((Z.of_nat (count i g.1.2) < min_hist_count (self w))%Z →
       count i new_l.1.2 = 0).
Proof.
  intros Hmax g. subst g. rewrite gather_spec.
  destruct (filter_inputs_spec w (observations (frame_history (self w))))
    as (out & Hrun & Hout).
  exists (unzip3 out). split; [done|]. intros i.
  unfold unzip3. cbn [fst snd]. rewrite !count_map_obs_id, Hout.
  case_decide as Hmin.
  - split; [|lia]. rewrite length_take. lia.
  - simpl. split; [lia|done].
Qed.

(** C2.  For every history, the output of the history filter for an
    eligible object id is exactly the first [max_hist_count] (or all, if
    fewer) of that object's present observations in the arrangement of the
    gathered observations by time descending, observations of equal time
    keeping their insertion order; an ineligible id contributes nothing.
    That arrangement is a permutation of the gathered observations, is
    descending in time and keeps ties in insertion order; restricted to one
    object it is the same arrangement of that object's observations. *)
Theorem filter_most_recent w :
  let h := observations (frame_history (self w)) in
  let g := gather (frame_history (self w)) in
  let comb := sorted_reverse obs_time h in
  g = unzip3 h ∧
  comb ≡ₚ h ∧
  key_desc obs_time comb ∧
  (∀ t, filter (λ x, obs_time x = t) comb = filter (λ x, obs_time x = t) h) ∧
  (∀ i, of_object i comb = sorted_reverse obs_time (of_object i h)) ∧
  ∃ out,
    _filter_inputs g.1.1 g.1.2 g.2 w = (Ret (unzip3 out), w) ∧
    ∀ i, of_object i out =
         if decide (min_hist_count (self w) ≤ Z.of_nat (count i g.1.2))%Z
         then take (Z.to_nat (max_hist_count (self w))) (of_object i comb)
         else [].
Proof.
  intros h g comb. subst g comb.
  split; [apply gather_spec|].
  split; [apply sorted_reverse_perm|].
  split; [apply sorted_reverse_sorted|].
  split; [intros t; apply sorted_reverse_stable|].
  split; [intros i; apply filter_sorted_reverse|].
  rewrite gather_spec.
  destruct (filter_inputs_spec w h) as (out & Hrun & Hout).
  exists out. split; [done|]. intros i.
  specialize (Hout i). subst h. rewrite <- count_map_obs_id in Hout. exact Hout.
Qed.
End Filter.

(** ** Effects of the methods on the world *)

Section Effects.
Context {Pos D : Type}.
Variable dist : Pos → Pos → D.
Variable gtb : D → D → bool.
Variable net : NetInput Pos → list Pos.
Implicit Types (w : World Pos D).

Lemma quiet_keeps_self {A} (m : @M Pos D A) : quiet m → keeps_self m.
Proof. intros Hm w. by rewrite Hm. Qed.

Lemma quiet_ret {A} (a : A) : quiet (Pos:=Pos) (D:=D) (ret a).
Proof. done. Qed.
Lemma quiet_raise {A} e : quiet (Pos:=Pos) (D:=D) (raise (A:=A) e).
Proof. done. Qed.
Lemma quiet_lift {A} (o : outcome A) : quiet (Pos:=Pos) (D:=D) (lift o).
Proof. done. Qed.
Lemma quiet_get_self : quiet (Pos:=Pos) (D:=D) get_self.
Proof. done. Qed.

Lemma quiet_bind {A B} (m : @M Pos D A) (k : A → @M Pos D B) :
  quiet m → (∀ a, quiet (k a)) → quiet (bind m k).
Proof.
  intros Hm Hk w. unfold bind. specialize (Hm w).
  destruct (m w) as [[a|e] w1]; simpl in *; subst w1; [apply Hk|done].
Qed.

Lemma keeps_self_bind {A B} (m : @M Pos D A) (k : A → @M Pos D B) :
  keeps_self m → (∀ a, keeps_self (k a)) → keeps_self (bind m k).
Proof.
  intros Hm Hk w. unfold bind. specialize (Hm w).
  destruct (m w) as [[a|e] w1]; simpl in *; [|done].
  by rewrite Hk.
Qed.

Lemma keeps_self_call_net c : keeps_self (D:=D) (call_net net c).
Proof. done. Qed.

Lemma quiet_filter_inputs time_l id_l (pos_l : list Pos) :
  quiet (Pos:=Pos) (D:=D) (_filter_inputs time_l id_l pos_l).
Proof.
  destruct time_l; [apply quiet_ret|].
  apply quiet_bind; [apply quiet_get_self|]. intros s. apply quiet_lift.
Qed.

Lemma quiet_get_inputs : quiet (Pos:=Pos) (D:=D) _get_inputs.
Proof.
  apply quiet_bind; [apply quiet_get_self|]. intros s.
  destruct (gather (frame_history s)) as [[time_l id_l] pos_l].
  apply quiet_bind; [apply quiet_filter_inputs|]. intros [[t i] p].
  case_decide; apply quiet_ret.
Qed.

Lemma quiet_get_targets time : quiet (Pos:=Pos) (D:=D) (_get_targets time).
Proof.
  apply quiet_bind; [apply quiet_get_self|]. intros s.
  apply quiet_bind; [apply quiet_get_self|]. intros s'. apply quiet_ret.
Qed.

Lemma quiet_detect_loop actual_poss actual_ids preds violations :
  quiet (detect_loop dist gtb actual_poss actual_ids preds violations).
Proof.
  revert violations.
  induction preds as [|[[pp i] b] preds IH]; intros violations; simpl.
  - apply quiet_ret.
  - destruct b; simpl; [|apply IH].
    case_decide; [|apply IH].
    destruct (index i actual_ids) as [n|]; [|apply quiet_raise].
    destruct (actual_poss !! n) as [a|]; [|apply quiet_raise].
    apply quiet_bind; [apply quiet_get_self|]. intros s.
    destruct (gtb _ _); apply IH.
Qed.

Lemma keeps_self_predict time : keeps_self (D:=D) (predict net time).
Proof.
  apply keeps_self_bind; [apply quiet_keeps_self, quiet_get_inputs|].
  intros [[[[o_pos o_ts] o_ids] o_mask]|]; [|done].
  apply keeps_self_bind; [apply quiet_keeps_self, quiet_get_targets|]. intros tgt.
  apply keeps_self_bind; [apply keeps_self_call_net|]. done.
Qed.

Lemma keeps_self_detect time actual_poss actual_ids :
  keeps_self (detect dist gtb net time actual_poss actual_ids).
Proof.
  apply keeps_self_bind; [apply keeps_self_predict|].
  intros [[[ids poss] masks]|]; [|done].
  apply keeps_self_bind; [apply quiet_keeps_self, quiet_detect_loop|]. done.
Qed.

(** C10.  A call of [detect] leaves the detector's history, registry,
    [min_hist_count], [max_hist_count] and [dist_thresh] as they were,
    whatever its outcome; so do [predict], [_get_inputs], [_get_targets]
    and [_filter_inputs].  [record_obs] is the only method that assigns to
    the state. *)
Theorem detect_keeps_state time actual_poss actual_ids w :
  let w' := (detect dist gtb net time actual_poss actual_ids w).2 in
  (frame_history (self w') = frame_history (self w) ∧
   all_ids (self w') = all_ids (self w) ∧
   min_hist_count (self w') = min_hist_count (self w) ∧
   max_hist_count (self w') = max_hist_count (self w) ∧
   dist_thresh (self w') = dist_thresh (self w)) ∧
  self (predict net time w).2 = self w ∧
  (_get_inputs w).2 = w ∧
  (_get_targets time w).2 = w ∧
  (∀ time_l id_l pos_l, (_filter_inputs time_l id_l pos_l w).2 = w).
Proof.
  intros w'. subst w'. rewrite keeps_self_detect.
  split; [done|]. split; [apply keeps_self_predict|].
  split; [apply quiet_get_inputs|]. split; [apply quiet_get_targets|].
  intros. apply quiet_filter_inputs.
Qed.

Lemma dict_set_fresh {V} (k : Z) (v : V) (d : list (Z * V)) :
  k ∉ d.*1 → dict_set k v d = d ++ [(k, v)].
Proof.
  induction d as [|[k' v'] d IH]; simpl; [done|]. intros Hk.
  apply not_elem_of_cons in Hk as [Hne Hk].
  rewrite decide_False by done. by rewrite IH.
Qed.

Lemma record_obs_dup time ids (pos : list Pos) present w :
  time ∈ (frame_history (self w)).*1 →
  record_obs time ids pos present w = (Raise AssertionError, w).
Proof.
  intros Hin. unfold record_obs, bind, get_self. simpl.
  by rewrite decide_True.
Qed.

Lemma record_obs_fresh time ids (pos : list Pos) present w :
  time ∉ (frame_history (self w)).*1 →
  record_obs time ids pos present w =
  (Ret tt,
   mkWorld (mkVOE (frame_history (self w) ++ [(time, (ids, pos, present))])
                  (all_ids (self w) ∪ list_to_set ids)
                  (dist_thresh (self w)) (min_hist_count (self w))
                  (max_hist_count (self w)))
           (net_calls w)).
Proof.
  intros Hin. unfold record_obs, bind, get_self. simpl.
  rewrite decide_False by done. simpl.
  unfold set_all_ids. simpl. by rewrite dict_set_fresh.
Qed.

(** C7.  [record_obs(time, ids, pos, present)] raises, and then raises the
    assertion error, exactly when [time] is already a key of the history; a
    failing call leaves history and registry (the whole world) unchanged; a
    successful call adds the one record [(ids, pos, present)] under [time]
    after the existing records, which it keeps. *)
Theorem record_obs_once time ids (pos : list Pos) present w :
  let r := record_obs time ids pos present w in
  ((∃ e, r.1 = Raise e) ↔ time ∈ (frame_history (self w)).*1) ∧
  (time ∈ (frame_history (self w)).*1 → r = (Raise AssertionError, w)) ∧
  (time ∉ (frame_history (self w)).*1 →
   r.1 = Ret tt ∧
   frame_history (self r.2) = frame_history (self w) ++ [(time, (ids, pos, present))] ∧
   (frame_history (self r.2)).*1 = (frame_history (self w)).*1 ++ [time] ∧
   length (frame_history (self r.2)) = S (length (frame_history (self w)))).
Proof.
  intros r. subst r.
  destruct (decide (time ∈ (frame_history (self w)).*1)) as [Hin|Hin].
  - rewrite record_obs_dup by done. simpl.
    split; [split; [done|by exists AssertionError]|]. split; done.
  - rewrite record_obs_fresh by done. simpl.
    split; [split; [by intros [e ?]|done]|]. split; [done|]. intros _.
    split; [done|]. split; [done|].
    rewrite fmap_app, length_app. simpl. split; [done|lia].
Qed.

Lemma record_obs_registry time ids (pos : list Pos) present w :
  let w' := (record_obs time ids pos present w).2 in
  all_ids (self w) ⊆ all_ids (self w') ∧
  ((record_obs time ids pos present w).1 = Ret tt →
   all_ids (self w') = all_ids (self w) ∪ list_to_set ids).
Proof.
  intros w'. subst w'.
  destruct (decide (time ∈ (frame_history (self w)).*1)) as [Hin|Hin].
  - rewrite record_obs_dup by done. simpl. split; [done|]. by intros ?.
  - rewrite record_obs_fresh by done. simpl. split; [apply union_subseteq_l|done].
Qed.

(** C8.  After a sequence of [record_obs] calls that all succeed, the
    registry is the registry before them joined with all object ids passed,
    whatever their [present] flags; started from a fresh detector it is the
    union of the ids passed.  Every single call, failed or not, leaves a
    registry that includes the previous one. *)
Theorem registry_union (calls : list (RecordCall (Pos:=Pos))) w :
  let r := record_all calls w in
  (r.1 = Ret tt →
   all_ids (self r.2) = all_ids (self w) ∪ ids_passed calls ∧
   (all_ids (self w) = ∅ → all_ids (self r.2) = ids_passed calls)) ∧
  all_ids (self w) ⊆ all_ids (self r.2) ∧
  (∀ time ids pos present,
     all_ids (self w) ⊆ all_ids (self (record_obs time ids pos present w).2)).
Proof.
  intros r. subst r. split; [|split].
  - revert w. induction calls as [|[[[time ids] pos] present] calls IH]; intros w.
    + simpl. intros _. unfold ids_passed. simpl.
      split; [by rewrite (right_id_L ∅ (∪))|]. intros ->. done.
    + simpl. unfold bind.
      destruct (record_obs_registry time ids pos present w) as [_ Hreg].
      destruct (record_obs time ids pos present w) as [[[]|e] w1] eqn:E; simpl in *;
        [|done].
      intros Hok. destruct (IH w1 Hok) as [-> _]. rewrite (Hreg eq_refl).
      unfold ids_passed. simpl.
      split; [by rewrite (assoc_L (∪))|]. intros ->.
      by rewrite !(left_id_L ∅ (∪)).
  - revert w. induction calls as [|[[[time ids] pos] present] calls IH]; intros w.
    + done.
    + simpl. unfold bind.
      destruct (record_obs_registry time ids pos present w) as [Hsub _].
      destruct (record_obs time ids pos present w) as [[[]|e] w1] eqn:E; simpl in *;
        [|done].
      etrans; [exact Hsub|apply IH].
  - intros. apply record_obs_registry.
Qed.

End Effects.

(** ** Prediction and detection *)

Section Detection.
Context {Pos D : Type}.
Variable dist : Pos → Pos → D.
Variable gtb : D → D → bool.
Variable net : NetInput Pos → list Pos.
Implicit Types (w : World Pos D) (out : list (Z * Z * Pos)).

Lemma get_inputs_run w :
  let g := gather (frame_history (self w)) in
  ∃ out,
    _filter_inputs g.1.1 g.1.2 g.2 w = (Ret (unzip3 out), w) ∧
    _get_inputs w = (Ret (inputs_of out), w).
Proof.
  intros g. subst g.
  destruct (filter_inputs_spec w (observations (frame_history (self w))))
    as (out & Hrun & _).
  exists out. rewrite gather_spec. split; [done|].
  unfold _get_inputs, bind at 1, get_self. rewrite gather_spec.
  unfold unzip3 in *. cbn [fst snd] in Hrun. cbv iota beta. unfold bind.
  rewrite Hrun. unfold inputs_of. by case_decide.
Qed.

Lemma predict_none time w :
  _get_inputs w = (Ret None, w) → predict net time w = (Ret None, w).
Proof. intros H. unfold predict, bind. by rewrite H. Qed.

Lemma predict_some time w in_ :
  _get_inputs w = (Ret (Some in_), w) →
  let c := net_input w time in_ in
  predict net time w =
  (Ret (Some (tgt_ids c, net c, map (λ i, bool_decide (i ∈ obj_ids c)) (tgt_ids c))),
   mkWorld (self w) (net_calls w ++ [c])).
Proof.
  intros H c. subst c. unfold predict, bind. rewrite H.
  by destruct in_ as [[[o_pos o_ts] o_ids] o_mask].
Qed.

(** A run of the loop that returns has appended, entry by entry, what
    [emitted] describes, and every position it looked up was there. *)
Lemma detect_loop_ret actual_poss actual_ids preds violations w viols w' :
  detect_loop dist gtb actual_poss actual_ids preds violations w = (Ret viols, w') →
  w' = w ∧
  viols = violations ++
          (preds ≫= emitted dist gtb (dist_thresh (self w)) actual_poss actual_ids) ∧
  ∀ pp i, (pp, i, true) ∈ preds → i ∈ actual_ids →
          ∃ n a, index i actual_ids = Some n ∧ actual_poss !! n = Some a.
Proof.
  revert violations.
  induction preds as [|[[pp i] b] preds IH]; intros violations; simpl.
  - intros [= -> ->]. rewrite app_nil_r. split; [done|]. split; [done|].
    intros ?? Hin. by apply elem_of_nil in Hin.
  - unfold emitted at 1. simpl. destruct b; simpl.
    2:{ intros Hrun. destruct (IH _ Hrun) as (-> & -> & Hlook).
        split; [done|]. split; [done|]. intros pp' i' Hin.
        apply elem_of_cons in Hin as [[=]|Hin]. intros Hi'. by eapply Hlook. }
    destruct (decide (i ∈ actual_ids)) as [Hi|Hi].
    2:{ intros Hrun. destruct (IH _ Hrun) as (-> & -> & Hlook).
        split; [done|]. split; [by rewrite <- app_assoc|]. intros pp' i' Hin Hi'.
        apply elem_of_cons in Hin as [[= -> ->]|Hin]; [done|]. by eapply Hlook. }
    destruct (index i actual_ids) as [n|] eqn:En; [|done]. simpl.
    destruct (actual_poss !! n) as [a|] eqn:Ea; [|done].
    unfold bind, get_self. simpl.
    destruct (gtb (dist a pp) (dist_thresh (self w))); intros Hrun;
      destruct (IH _ Hrun) as (-> & -> & Hlook);
      (split; [done|]); (split; [by rewrite <- ?app_assoc|]);
      intros pp' i' Hin Hi';
      (apply elem_of_cons in Hin as [[= -> ->]|Hin]; [by exists n, a|by eapply Hlook]).
Qed.

(** With a position for every actual id the loop does not raise. *)
Lemma detect_loop_total actual_poss actual_ids preds violations w :
  length actual_ids ≤ length actual_poss →
  ∃ viols,
    detect_loop dist gtb actual_poss actual_ids preds violations w = (Ret viols, w).
Proof.
  intros Hlen. revert violations.
  induction preds as [|[[pp i] b] preds IH]; intros violations; simpl.
  - by eexists.
  - destruct b; simpl; [|apply IH].
    destruct (decide (i ∈ actual_ids)) as [Hi|Hi]; [|apply IH].
    destruct (index_elem_of i actual_ids Hi) as (n & -> & Hn).
    destruct (lookup_lt_is_Some_2 actual_poss n) as [a ->].
    { apply lookup_lt_Some in Hn. lia. }
    unfold bind, get_self. simpl. destruct (gtb _ _); apply IH.
Qed.

Lemma detect_none time actual_poss actual_ids w :
  _get_inputs w = (Ret None, w) →
  detect dist gtb net time actual_poss actual_ids w = (Ret None, w).
Proof. intros H. unfold detect, bind. by rewrite predict_none. Qed.

(** [detect] after a prediction: one predictor call, then the loop. *)
Lemma detect_some time actual_poss actual_ids w in_ :
  _get_inputs w = (Ret (Some in_), w) →
  let c := net_input w time in_ in
  let w1 := mkWorld (self w) (net_calls w ++ [c]) in
  let masks := map (λ i, bool_decide (i ∈ obj_ids c)) (tgt_ids c) in
  detect dist gtb net time actual_poss actual_ids w =
  (match (detect_loop dist gtb actual_poss actual_ids
            (zip3 (net c) (tgt_ids c) masks) [] w1).1 with
   | Ret viols => Ret (Some viols)
   | Raise e => Raise e
   end, w1).
Proof.
  intros H c w1 masks. unfold detect, bind. rewrite (predict_some _ _ _ H).
  fold c w1 masks.
  pose proof (quiet_detect_loop dist gtb actual_poss actual_ids
                (zip3 (net c) (tgt_ids c) masks) [] w1) as Hq.
  destruct (detect_loop _ _ _ _ _ _ _) as [[v|e] w2]; simpl in *; by subst w2.
Qed.

Lemma inputs_of_None out : inputs_of out = None ↔ out = [].
Proof.
  unfold inputs_of. case_decide as H; split; try done.
  - intros _. rewrite length_map in H. by apply nil_length_inv.
  - intros ->. done.
Qed.

(** C3.  In a state whose filter output is empty, [detect] returns [None]
    and makes no predictor call (the world, log included, is unchanged); a
    state without present observations is such a state.  In every other
    state [detect] makes exactly one predictor call, whatever its outcome.
    The three lists of the filter output have one length, so one is empty
    when all are. *)
Theorem detect_short_circuit time actual_poss actual_ids w :
  let g := gather (frame_history (self w)) in
  ∃ new_l,
    _filter_inputs g.1.1 g.1.2 g.2 w = (Ret new_l, w) ∧
    (length new_l.1.2 = length new_l.1.1 ∧ length new_l.2 = length new_l.1.1) ∧
    (new_l.1.1 = [] →
     detect dist gtb net time actual_poss actual_ids w = (Ret None, w)) ∧
    (new_l.1.1 ≠ [] →
     ∃ c, (detect dist gtb net time actual_poss actual_ids w).2 =
          mkWorld (self w) (net_calls w ++ [c])) ∧
    (observations (frame_history (self w)) = [] → new_l.1.1 = []).
Proof.
  intros g. destruct (get_inputs_run w) as (out & Hf & Hin). fold g in Hf.
  exists (unzip3 out). split; [done|]. unfold unzip3. cbn [fst snd].
  split; [by rewrite !length_map|].
  split; [|split].
  - intros Hnil. apply detect_none. rewrite Hin.
    apply fmap_nil_inv in Hnil as ->. done.
  - intros Hne. destruct (inputs_of out) as [in_|] eqn:Ein.
    + rewrite (detect_some _ _ _ _ _ Hin). by eexists.
    + apply inputs_of_None in Ein as ->. done.
  - intros Hobs. subst g. rewrite gather_spec, Hobs in Hf.
    unfold _filter_inputs, ret, unzip3 in Hf. simpl in Hf.
    by injection Hf as <- _ _.
Qed.

Lemma emitted_object_id thresh actual_poss actual_ids x v :
  v ∈ emitted dist gtb thresh actual_poss actual_ids x → object_id v = x.1.2.
Proof.
  unfold emitted. destruct x as [[pp i] [|]]; simpl; [|by intros ?%elem_of_nil].
  case_decide.
  - destruct (index i actual_ids ≫= _); [|by intros ?%elem_of_nil].
    destruct (gtb _ _); [|by intros ?%elem_of_nil].
    by intros ->%list_elem_of_singleton.
  - by intros ->%list_elem_of_singleton.
Qed.

(** The violations of one object come from the entries of that object. *)
Lemma filter_bind_emitted thresh actual_poss actual_ids i
    (preds : list (Pos * Z * bool)) :
  filter (λ v, object_id v = i)
         (preds ≫= emitted dist gtb thresh actual_poss actual_ids) =
  filter (λ x, x.1.2 = i) preds ≫= emitted dist gtb thresh actual_poss actual_ids.
Proof.
  induction preds as [|x preds IH]; [done|].
  rewrite bind_cons, filter_app, IH, (filter_cons _ x).
  destruct (decide (x.1.2 = i)) as [Hx|Hx].
  - rewrite bind_cons. f_equal. apply filter_all.
    intros v Hv. rewrite <- Hx. by eapply emitted_object_id.
  - rewrite filter_none; [done|].
    intros v Hv Hi. apply Hx. rewrite <- Hi. symmetry. by eapply emitted_object_id.
Qed.

Lemma lookup_pred_entries c k :
  pred_entries net c !! k =
  match net c !! k, tgt_ids c !! k with
  | Some pp, Some i => Some (pp, i, bool_decide (i ∈ obj_ids c))
  | _, _ => None
  end.
Proof.
  unfold pred_entries. rewrite lookup_zip3, list_lookup_fmap.
  destruct (net c !! k); [|done]. by destruct (tgt_ids c !! k).
Qed.

Lemma pred_entries_mask c x :
  x ∈ pred_entries net c → x.2 = bool_decide (x.1.2 ∈ obj_ids c).
Proof.
  intros [k Hk]%list_elem_of_lookup. rewrite lookup_pred_entries in Hk.
  destruct (net c !! k); [|done]. destruct (tgt_ids c !! k); [|done].
  by injection Hk as <-.
Qed.

(** What a returning [detect] has done. *)
Lemma detect_ret_some time actual_poss actual_ids w in_ viols w' :
  _get_inputs w = (Ret (Some in_), w) →
  detect dist gtb net time actual_poss actual_ids w = (Ret (Some viols), w') →
  let c := net_input w time in_ in
  w' = mkWorld (self w) (net_calls w ++ [c]) ∧
  viols = pred_entries net c ≫=
            emitted dist gtb (dist_thresh (self w)) actual_poss actual_ids ∧
  ∀ pp i, (pp, i, true) ∈ pred_entries net c → i ∈ actual_ids →
          ∃ n a, index i actual_ids = Some n ∧ actual_poss !! n = Some a.
Proof.
  intros Hin Hrun c.
  rewrite (detect_some _ _ _ _ _ Hin) in Hrun. fold c in Hrun.
  fold (pred_entries net c) in Hrun.
  destruct (detect_loop _ _ _ _ _ _ _) as [[v|e] w2] eqn:El; simpl in Hrun; [|done].
  injection Hrun as <- <-.
  apply detect_loop_ret in El as (-> & -> & Hlook). done.
Qed.

Lemma detect_ret_inv time actual_poss actual_ids w viols w' :
  detect dist gtb net time actual_poss actual_ids w = (Ret (Some viols), w') →
  ∃ out in_,
    let g := gather (frame_history (self w)) in
    let c := net_input w time in_ in
    _filter_inputs g.1.1 g.1.2 g.2 w = (Ret (unzip3 out), w) ∧
    inputs_of out = Some in_ ∧
    w' = mkWorld (self w) (net_calls w ++ [c]) ∧
    viols = pred_entries net c ≫=
              emitted dist gtb (dist_thresh (self w)) actual_poss actual_ids ∧
    ∀ pp i, (pp, i, true) ∈ pred_entries net c → i ∈ actual_ids →
            ∃ n a, index i actual_ids = Some n ∧ actual_poss !! n = Some a.
Proof.
  intros Hrun. destruct (get_inputs_run w) as (out & Hf & Hin).
  destruct (inputs_of out) as [in_|] eqn:Ein.
  2:{ rewrite (detect_none _ _ _ _ Hin) in Hrun. done. }
  exists out, in_. intros g c. split; [done|]. split; [done|].
  by apply detect_ret_some.
Qed.

(** The violations [detect] returns for the object queried at position [k]
    are those emitted for that one entry. *)
Lemma viols_of_entry thresh actual_poss actual_ids w time in_ k i pp :
  let c := net_input w time in_ in
  tgt_ids c !! k = Some i → net c !! k = Some pp →
  filter (λ v, object_id v = i)
         (pred_entries net c ≫= emitted dist gtb thresh actual_poss actual_ids) =
  emitted dist gtb thresh actual_poss actual_ids (pp, i, bool_decide (i ∈ obj_ids c)).
Proof.
  intros c Hi Hpp. rewrite filter_bind_emitted.
  pose (x := (pp, i, bool_decide (i ∈ obj_ids c))).
  change i with x.1.2 at 1. unfold pred_entries.
  rewrite filter_zip3_NoDup.
  - simpl. by rewrite app_nil_r.
  - apply NoDup_elements.
  - apply list_elem_of_lookup. exists k. fold (pred_entries net c).
    by rewrite lookup_pred_entries, Hpp, Hi.
Qed.


Lemma inputs_of_Some out in_ :
  inputs_of out = Some in_ → in_.1.2 = map obs_id out ∧ out ≠ [].
Proof.
  unfold inputs_of. case_decide as H; [done|]. intros [= <-]. split; [done|].
  by intros ->.
Qed.

(** C4.  In a run of [detect] that returns a list, take an id [i] queried
    at position [k], with predicted position [pp], that is backed by
    training history (its mask holds) and occurs in [actual_ids]; let [a] be
    the actual position at the first occurrence of [i] in [actual_ids].
    Then the violations returned for [i] are the one
    [PositionViolation i pp a] when [dist a pp > dist_thresh] and none
    otherwise: a [PositionViolation] for [i] is returned if and only if the
    distance strictly exceeds the threshold, and none when the distance
    equals it.  The comparison [>] is taken irreflexive. *)
Theorem position_threshold time actual_poss actual_ids w viols w' :
  (∀ x, gtb x x = false) →
  detect dist gtb net time actual_poss actual_ids w = (Ret (Some viols), w') →
  ∃ c,
    w' = mkWorld (self w) (net_calls w ++ [c]) ∧
    ∀ k i pp,
      tgt_ids c !! k = Some i → net c !! k = Some pp →
      i ∈ obj_ids c → i ∈ actual_ids →
      ∃ n a,
        index i actual_ids = Some n ∧ actual_poss !! n = Some a ∧
        filter (λ v, object_id v = i) viols =
          (if gtb (dist a pp) (dist_thresh (self w))
           then [PositionViolation i pp a] else []) ∧
        ((∃ p' a', PositionViolation i p' a' ∈ viols) ↔
         gtb (dist a pp) (dist_thresh (self w)) = true) ∧
        (dist a pp = dist_thresh (self w) →
         ∀ p' a', PositionViolation i p' a' ∉ viols).
Proof.
  intros Hirr Hrun.
  destruct (detect_ret_inv _ _ _ _ _ _ Hrun) as (out & in_ & _ & _ & -> & -> & Hlook).
  exists (net_input w time in_). split; [done|].
  intros k i pp Hi Hpp Hback Hact.
  destruct (Hlook pp i) as (n & a & Hn & Ha); [|done|].
  { apply list_elem_of_lookup. exists k.
    by rewrite lookup_pred_entries, Hpp, Hi, bool_decide_eq_true_2. }
  exists n, a. split; [done|]. split; [done|].
  assert (filter (λ v, object_id v = i)
            (pred_entries net (net_input w time in_) ≫=
               emitted dist gtb (dist_thresh (self w)) actual_poss actual_ids) =
          (if gtb (dist a pp) (dist_thresh (self w))
           then [PositionViolation i pp a] else [])) as Hfil.
  { rewrite (viols_of_entry _ _ _ _ _ _ k i pp Hi Hpp).
    rewrite bool_decide_eq_true_2 by done. unfold emitted. simpl.
    rewrite decide_True by done. rewrite Hn. simpl. by rewrite Ha. }
  split; [done|].
  assert (∀ p' a', PositionViolation i p' a' ∈
            pred_entries net (net_input w time in_) ≫=
              emitted dist gtb (dist_thresh (self w)) actual_poss actual_ids ↔
          PositionViolation i p' a' ∈
            (if gtb (dist a pp) (dist_thresh (self w))
             then [PositionViolation i pp a] else [])) as Hmem.
  { intros p' a'. rewrite <- Hfil, list_elem_of_filter. simpl. tauto. }
  split; [split|].
  - intros (p' & a' & Hv). apply Hmem in Hv.
    destruct (gtb _ _); [done|]. by apply elem_of_nil in Hv.
  - intros Hgt. exists pp, a. apply Hmem. rewrite Hgt. left.
  - intros Heq p' a' Hv. apply Hmem in Hv. rewrite Heq, Hirr in Hv.
    by apply elem_of_nil in Hv.
Qed.


(** C9, as the code has it.  [predict] makes no length check: whatever the
    length of the predictor's answer, it returns the answer as it is and
    does not raise.  [detect] pairs positions and ids with [zip], so it
    looks at the first [min (len pred) (len query)] pairs only; with a
    position for every actual id it returns a list; and a query id beyond
    the end of the predictor's answer gets no violation. *)
Theorem predict_no_length_check time actual_poss actual_ids w in_ :
  _get_inputs w = (Ret (Some in_), w) →
  let c := net_input w time in_ in
  let w1 := mkWorld (self w) (net_calls w ++ [c]) in
  let masks := map (λ i, bool_decide (i ∈ obj_ids c)) (tgt_ids c) in
  let n := length (net c) `min` length (tgt_ids c) in
  predict net time w = (Ret (Some (tgt_ids c, net c, masks)), w1) ∧
  length (pred_entries net c) = n ∧
  (length actual_ids ≤ length actual_poss →
   ∃ viols, detect dist gtb net time actual_poss actual_ids w = (Ret (Some viols), w1)) ∧
  ∀ viols w',
    detect dist gtb net time actual_poss actual_ids w = (Ret (Some viols), w') →
    ∀ k i, tgt_ids c !! k = Some i → length (net c) ≤ k →
           filter (λ v, object_id v = i) viols = [].
Proof.
  intros Hin c w1 masks n.
  split; [by apply predict_some|]. split; [|split].
  - subst n masks. unfold pred_entries. generalize (net c) (tgt_ids c).
    intros a b. revert b. induction a as [|x a IH]; intros [|y b]; simpl; try done.
    by rewrite IH.
  - intros Hlen. rewrite (detect_some _ _ _ _ _ Hin). fold c w1 masks.
    destruct (detect_loop_total actual_poss actual_ids
                (zip3 (net c) (tgt_ids c) masks) [] w1 Hlen) as [viols ->].
    by exists viols.
  - intros viols w' Hrun k i Hi Hk.
    destruct (detect_ret_some _ _ _ _ _ _ _ Hin Hrun) as (_ & -> & _).
    rewrite filter_bind_emitted, filter_none; [done|].
    intros x [k' Hk']%list_elem_of_lookup Hx.
    rewrite lookup_pred_entries in Hk'. fold c in Hk'.
    destruct (net c !! k') as [pp|] eqn:Epp; [|done].
    destruct (tgt_ids c !! k') as [j|] eqn:Ej; [|done].
    injection Hk' as <-. simpl in Hx. subst j.
    assert (k' = k) as ->.
    { apply (NoDup_lookup (tgt_ids c) k' k i); [|done..].
      apply (NoDup_elements (all_ids (self w))). }
    apply lookup_lt_Some in Epp. lia.
Qed.

End Detection.

(** ** Heat maps *)

Section Heatmap.
Context {Pos : Type}.
Implicit Types (viols : list (Violation Pos)) (obj_mask : list (list Z)).

Lemma pixel_zeros_like obj_mask r c :
  pixel (zeros_like obj_mask) r c = (λ _, false) <$> pixel obj_mask r c.
Proof.
  unfold pixel, zeros_like. rewrite list_lookup_fmap.
  destruct (obj_mask !! r) as [row|]; simpl; [|done].
  by rewrite list_lookup_fmap.
Qed.

Lemma pixel_mask_eq obj_mask i r c :
  pixel (mask_eq obj_mask i) r c = (λ m, bool_decide (m = i)) <$> pixel obj_mask r c.
Proof.
  unfold pixel, mask_eq. rewrite list_lookup_fmap.
  destruct (obj_mask !! r) as [row|]; simpl; [|done].
  by rewrite list_lookup_fmap.
Qed.

Lemma pixel_arr_add a b r c :
  pixel (arr_add a b) r c =
  x ← pixel a r c; y ← pixel b r c; Some (x || y).
Proof.
  unfold pixel, arr_add. rewrite lookup_zip_with.
  destruct (a !! r) as [ra|]; simpl; [|done].
  destruct (b !! r) as [rb|]; simpl.
  - rewrite lookup_zip_with. done.
  - by destruct (ra !! c).
Qed.

(** Once [hmap] is [None] it stays [None] through [PresenceViolation]s and
    the first [PositionViolation] raises. *)
Lemma heatmap_loop_None viols obj_mask :
  heatmap_loop viols PyNone obj_mask =
  if forallb is_presence viols then Ret PyNone else Raise TypeError.
Proof.
  induction viols as [|[i pp a|i pp] viols IH]; simpl; [done|done|]. apply IH.
Qed.

(** A sequence with a [PresenceViolation] in it never yields a buffer. *)
Lemma heatmap_presence_no_buffer viols hmap obj_mask :
  existsb is_presence viols = true →
  heatmap_loop viols hmap obj_mask = Ret PyNone ∨
  heatmap_loop viols hmap obj_mask = Raise TypeError.
Proof.
  revert hmap. induction viols as [|[i pp a|i pp] viols IH]; intros hmap; simpl.
  - done.
  - intros Hex. destruct hmap as [|arr]; simpl; [by right|]. by apply IH.
  - intros _. rewrite heatmap_loop_None. destruct (forallb _ _); [by left|by right].
Qed.

(** On [PositionViolation]s alone the loop ORs their regions into the
    buffer. *)
Lemma heatmap_loop_positions viols arr obj_mask :
  forallb is_position viols = true →
  (∀ r c, is_Some (pixel arr r c) ↔ is_Some (pixel obj_mask r c)) →
  ∃ buf,
    heatmap_loop viols (PyArr arr) obj_mask = Ret (PyArr buf) ∧
    ∀ r c,
      pixel buf r c =
      b ← pixel arr r c; m ← pixel obj_mask r c;
      Some (b || existsb (λ v, bool_decide (m = object_id v)) viols).
Proof.
  revert arr. induction viols as [|[i pp a|i pp] viols IH]; intros arr Hpos Hshape;
    simpl in *; [| |done].
  - exists arr. split; [done|]. intros r c. specialize (Hshape r c).
    destruct (pixel arr r c) as [b|]; simpl; [|done].
    destruct (pixel obj_mask r c) as [m|]; simpl.
    + by rewrite orb_false_r.
    + destruct Hshape as [[? ?] _]; [by eexists|done].
  - destruct (IH (arr_add arr (mask_eq obj_mask i)) Hpos) as (buf & Hrun & Hbuf).
    { intros r c. rewrite pixel_arr_add, pixel_mask_eq. specialize (Hshape r c).
      destruct (pixel arr r c) as [b|], (pixel obj_mask r c) as [m|]; simpl;
        done. }
    exists buf. split; [done|]. intros r c. rewrite Hbuf.
    rewrite pixel_arr_add, pixel_mask_eq.
    destruct (pixel arr r c) as [b|]; simpl; [|done].
    destruct (pixel obj_mask r c) as [m|]; simpl; [|done].
    by rewrite orb_assoc.
Qed.

(** Without a [PresenceViolation] in the sequence (the empty and the absent
    sequence included) [make_voe_heatmap] returns a buffer of the shape of
    the mask whose pixel is set exactly when some violation carries the
    object id at that pixel. *)
Lemma make_voe_heatmap_positions (viols : option (list (Violation Pos))) obj_mask :
  forallb is_position (default [] viols) = true →
  ∃ buf,
    make_voe_heatmap viols obj_mask = Ret (PyArr buf) ∧
    ∀ r c,
      pixel buf r c =
      (λ m, existsb (λ v, bool_decide (m = object_id v)) (default [] viols))
        <$> pixel obj_mask r c.
Proof.
  intros Hpos. unfold make_voe_heatmap.
  destruct (heatmap_loop_positions (default [] viols) (zeros_like obj_mask)
              obj_mask Hpos) as (buf & Hrun & Hbuf).
  { intros r c. rewrite pixel_zeros_like. by rewrite fmap_is_Some. }
  exists buf. split; [done|]. intros r c. rewrite Hbuf, pixel_zeros_like.
  by destruct (pixel obj_mask r c).
Qed.
End Heatmap.

(** C6, on the sequence of one [PresenceViolation] over a mask of one pixel:
    [make_voe_heatmap] returns [None], not the all-false buffer, because
    [PresenceViolation.fill_heatmap] returns nothing and the loop assigns
    that to [hmap]; with a [PositionViolation] after it the addition to
    [None] raises [TypeError]. *)
Theorem heatmap_presence_lost :
  make_voe_heatmap (Some [PresenceViolation 1 origin]) [[1%Z]] = Ret PyNone ∧
  make_voe_heatmap
    (Some [PresenceViolation 1 origin; PositionViolation 1 origin origin]) [[1%Z]]
  = Raise TypeError ∧
  make_voe_heatmap (Some [PositionViolation 1 origin origin]) [[1%Z]]
  = Ret (PyArr [[true]]) ∧
  make_voe_heatmap (None : option (list (Violation Vec3))) [[1%Z]]
  = Ret (PyArr [[false]]).
Proof. repeat split. Qed.

(** ** The example scene, evaluated *)

Example scene_inputs_run : _get_inputs scene_world = (Ret (Some scene_inputs), scene_world).
Proof. vm_compute. reflexivity. Qed.

(** The end-to-end scenario: object 1 stood at the origin for five frames,
    the predictor answers the origin, and the object is observed one step
    away. *)
Example scene_position_violation :
  (detect grid_dist Z.gtb stub_net 5 [(1, 0, 0)%Z] [1%Z] scene_world).1 =
  Ret (Some [PositionViolation 1 origin (1, 0, 0)%Z]).
Proof. vm_compute. reflexivity. Qed.

Example scene_presence_violation :
  (detect grid_dist Z.gtb stub_net 5 [] [] scene_world).1 =
  Ret (Some [PresenceViolation 1 origin]).
Proof. vm_compute. reflexivity. Qed.

(** The violations of that frame handed to [make_voe_heatmap]. *)
Example scene_heatmap_lost :
  obind (detect grid_dist Z.gtb stub_net 5 [] [] scene_world).1
        (λ viols, make_voe_heatmap viols [[1%Z; 2%Z]]) = Ret PyNone.
Proof. vm_compute. reflexivity. Qed.

Example scene_short_actual_poss :
  (detect grid_dist Z.gtb stub_net 5 [] [1%Z] scene_world).1 = Raise IndexError.
Proof. vm_compute. reflexivity. Qed.

Example sorted_reverse_ties :
  sorted_reverse fst [(1, 10); (3, 11); (1, 12); (3, 13); (2, 14)]%Z =
  [(3, 11); (3, 13); (2, 14); (1, 10); (1, 12)]%Z.
Proof. reflexivity. Qed.

Lemma filter_cap_witness :
  (0 ≤ max_hist_count (self scene_world))%Z ∧
  let g := gather (frame_history (self scene_world)) in
  ∃ new_l,
    _filter_inputs g.1.1 g.1.2 g.2 scene_world = (Ret new_l, scene_world) ∧
    ∀ i,
      (Z.of_nat (count i new_l.1.2) ≤ max_hist_count (self scene_world))%Z ∧
      ((Z.of_nat (count i g.1.2) < min_hist_count (self scene_world))%Z →
       count i new_l.1.2 = 0).
Proof.
  assert (0 ≤ max_hist_count (self scene_world))%Z as Hmax by (vm_compute; discriminate).
  split; [exact Hmax|]. exact (filter_cap scene_world Hmax).
Defined.

Lemma detect_short_circuit_witness :
  detect grid_dist Z.gtb stub_net 5 [] [] fresh_world = (Ret None, fresh_world) ∧
  ∃ c, (detect grid_dist Z.gtb stub_net 5 [] [] scene_world).2 =
       mkWorld (self scene_world) (net_calls scene_world ++ [c]).
Proof.
  split.
  - destruct (detect_short_circuit grid_dist Z.gtb stub_net 5 [] [] fresh_world)
      as (new_l & _ & _ & Hnil & _ & Hobs).
    apply Hnil, Hobs. reflexivity.
  - destruct (detect_short_circuit grid_dist Z.gtb stub_net 5 [] [] scene_world)
      as (new_l & Hf & _ & _ & Hne & _).
    apply Hne. vm_compute in Hf. injection Hf as <-. discriminate.
Defined.

Lemma gtb_irrefl (x : Z) : (x >? x)%Z = false.
Proof. rewrite Z.gtb_ltb. apply Z.ltb_irrefl. Qed.

Lemma position_threshold_witness :
  let r := detect grid_dist Z.gtb stub_net 5 [(1, 0, 0)%Z] [1%Z] scene_world in
  r = (Ret (Some [PositionViolation 1 origin (1, 0, 0)%Z]), r.2) ∧
  ∃ c,
    r.2 = mkWorld (self scene_world) (net_calls scene_world ++ [c]) ∧
    ∀ k i pp,
      tgt_ids c !! k = Some i → stub_net c !! k = Some pp →
      i ∈ obj_ids c → i ∈ [1%Z] →
      ∃ n a,
        index i [1%Z] = Some n ∧ [(1, 0, 0)%Z] !! n = Some a ∧
        filter (λ v, object_id v = i) [PositionViolation 1 origin (1, 0, 0)%Z] =
          (if (grid_dist a pp >? dist_thresh (self scene_world))%Z
           then [PositionViolation i pp a] else []) ∧
        ((∃ p' a', PositionViolation i p' a' ∈ [PositionViolation 1 origin (1, 0, 0)%Z]) ↔
         (grid_dist a pp >? dist_thresh (self scene_world))%Z = true) ∧
        (grid_dist a pp = dist_thresh (self scene_world) →
         ∀ p' a', PositionViolation i p' a' ∉ [PositionViolation 1 origin (1, 0, 0)%Z]).
Proof.
  intros r.
  assert (r = (Ret (Some [PositionViolation 1 origin (1, 0, 0)%Z]), r.2)) as Hrun
    by (vm_compute; reflexivity).
  split; [exact Hrun|].
  exact (position_threshold grid_dist Z.gtb stub_net 5 [(1, 0, 0)%Z] [1%Z] scene_world
           _ _ gtb_irrefl Hrun).
Defined.



Lemma record_obs_once_witness :
  record_obs 4 [1%Z] [origin] [true] scene_world = (Raise AssertionError, scene_world) ∧
  (record_obs 5 [1%Z] [origin] [true] scene_world).1 = Ret tt ∧
  (frame_history (self (record_obs 5 [1%Z] [origin] [true] scene_world).2)).*1 =
  (frame_history (self scene_world)).*1 ++ [5%Z].
Proof.
  split.
  - apply (record_obs_once 4 [1%Z] [origin] [true] scene_world). compute_done.
  - assert (5%Z ∉ (frame_history (self scene_world)).*1) as Hfresh by compute_done.
    destruct (record_obs_once 5 [1%Z] [origin] [true] scene_world) as (_ & _ & Hok).
    destruct (Hok Hfresh) as (H1 & _ & H3 & _). split; [exact H1|exact H3].
Defined.

Lemma registry_union_witness :
  (record_all scene_calls fresh_world).1 = Ret tt ∧
  all_ids (self scene_world) = ids_passed scene_calls.
Proof.
  assert ((record_all scene_calls fresh_world).1 = Ret tt) as Hok by reflexivity.
  split; [exact Hok|].
  destruct (registry_union scene_calls fresh_world) as (Hun & _).
  apply (Hun Hok). reflexivity.
Defined.

(** C9, refuted on the scene: the predictor [silent_net] answers no position
    for a query of two ids, and [detect] returns the empty list of violations
    instead of raising; [eager_net] answers one position too many and
    [detect] returns as with an aligned answer. *)
Lemma mismatch_not_rejected :
  let r := detect grid_dist Z.gtb silent_net 5 [] [] scene_world in
  (∃ c, net_calls r.2 = [c] ∧ length (silent_net c) ≠ length (tgt_ids c)) ∧
  r.1 = Ret (Some []) ∧
  let r' := detect grid_dist Z.gtb eager_net 5 [] [] scene_world in
  (∃ c, net_calls r'.2 = [c] ∧ length (eager_net c) ≠ length (tgt_ids c)) ∧
  r'.1 = Ret (Some [PresenceViolation 1 origin]).
Proof.
  intros r. split; [|split; [by vm_compute|]].
  - eexists. split; [by vm_compute|]. vm_compute. discriminate.
  - intros r'. split; [|by vm_compute].
    eexists. split; [by vm_compute|]. vm_compute. discriminate.
Qed.

Lemma predict_no_length_check_witness :
  _get_inputs scene_world = (Ret (Some scene_inputs), scene_world) ∧
  let c := net_input scene_world 5 scene_inputs in
  let w1 := mkWorld (self scene_world) (net_calls scene_world ++ [c]) in
  predict silent_net 5 scene_world =
    (Ret (Some (tgt_ids c, silent_net c,
                map (λ i, bool_decide (i ∈ obj_ids c)) (tgt_ids c))), w1) ∧
  length (pred_entries silent_net c) = 0.
Proof.
  assert (_get_inputs scene_world = (Ret (Some scene_inputs), scene_world)) as Hin
    by (vm_compute; reflexivity).
  split; [exact Hin|]. intros c w1.
  destruct (predict_no_length_check grid_dist Z.gtb silent_net 5 [] [] scene_world
              scene_inputs Hin) as (Hp & Hlen & _).
  split; [exact Hp|exact Hlen].
Defined.

(** * Further properties of the code *)

(** ** The history filter on arbitrary lists *)

Section FilterMore.
Context {Pos D : Type}.
Implicit Types (l comb out : list (Z * Z * Pos)) (w : World Pos D).

Lemma unzip3_inj l1 l2 : unzip3 l1 = unzip3 l2 → l1 = l2.
Proof.
  intros H. rewrite <- (zip3_unzip3 l1), <- (zip3_unzip3 l2).
  unfold unzip3 in H. by injection H as -> -> ->.
Qed.

Lemma zip3_lengths {A B C} (a : list A) (b : list B) (c : list C) :
  length (zip3 a b c) = length a `min` (length b `min` length c).
Proof.
  revert b c. induction a as [|x a IH]; intros [|y b] [|z c]; simpl;
    rewrite ?IH; lia.
Qed.

Lemma zip3_mid_sublist {A B C} (a : list A) (b : list B) (c : list C) :
  (zip3 a b c).*1.*2 `sublist_of` b.
Proof.
  revert b c. induction a as [|x a IH]; intros [|y b] [|z c]; simpl;
    try apply sublist_nil_l.
  constructor. apply IH.
Qed.

(** The entries the loop keeps are a sub-sequence of [comb]. *)
Lemma filter_loop_sublist (max_hist : Z) (obj_valid : gmap Z bool) comb
    (obj_count : gmap Z Z) l r :
  filter_loop max_hist obj_valid comb obj_count (unzip3 l) = Ret r →
  ∃ out, r = unzip3 (l ++ out) ∧ out `sublist_of` comb.
Proof.
  revert obj_count l. induction comb as [|[[t i] p] comb IH]; intros obj_count l; simpl.
  - intros [= <-]. exists []. by rewrite app_nil_r.
  - destruct (default 0%Z (obj_count !! i) <? max_hist)%Z.
    + destruct (obj_valid !! i) as [[|]|]; [| |done].
      * change (map obs_time l ++ [t], map obs_id l ++ [i], map obs_pos l ++ [p])
          with ((unzip3 l).1.1 ++ [obs_time (t, i, p)],
                (unzip3 l).1.2 ++ [obs_id (t, i, p)],
                (unzip3 l).2 ++ [obs_pos (t, i, p)]).
        rewrite <- unzip3_snoc. intros Hrun.
        destruct (IH _ _ Hrun) as (out & -> & Hsub).
        exists ((t, i, p) :: out). rewrite <- app_assoc. split; [done|].
        by constructor.
      * intros Hrun. destruct (IH _ _ Hrun) as (out & -> & Hsub).
        exists out. split; [done|]. by constructor.
    + intros Hrun. destruct (IH _ _ Hrun) as (out & -> & Hsub).
      exists out. split; [done|]. by constructor.
Qed.

(** [_filter_inputs] on three lists of any lengths, the first one not
    empty. *)
Lemma filter_inputs_general w (time_l id_l : list Z) (pos_l : list Pos) :
  time_l ≠ [] →
  let comb := sorted_reverse obs_time (zip3 time_l id_l pos_l) in
  ∃ out,
    _filter_inputs time_l id_l pos_l w = (Ret (unzip3 out), w) ∧
    out `sublist_of` comb ∧
    ∀ i, of_object i out =
         if decide (min_hist_count (self w) ≤ Z.of_nat (count i id_l))%Z
         then take (Z.to_nat (max_hist_count (self w))) (of_object i comb)
         else [].
Proof.
  intros Hne comb. rewrite filter_inputs_run by done. fold comb.
  destruct (filter_loop_spec (max_hist_count (self w))
              (make_obj_valid (min_hist_count (self w)) id_l) comb)
    with (obj_count := (∅ : gmap Z Z)) (l := @nil (Z * Z * Pos))
    as (out & Hrun & Hout).
  { intros y Hy. rewrite lookup_make_obj_valid, decide_True; [done|].
    subst comb. rewrite sorted_reverse_perm in Hy.
    apply (elem_of_zip3_mid time_l id_l pos_l y Hy). }
  destruct (filter_loop_sublist _ _ _ _ _ _ Hrun) as (out' & Heq & Hsub).
  apply unzip3_inj in Heq. simpl in Heq. subst out'.
  exists out. split; [f_equal; exact Hrun|]. split; [done|].
  intros i. rewrite Hout, lookup_empty. simpl. rewrite Z.sub_0_r.
  rewrite lookup_make_obj_valid.
  destruct (decide (i ∈ id_l)) as [Hin|Hin].
  - destruct (decide (min_hist_count (self w) ≤ Z.of_nat (count i id_l))%Z).
    + by rewrite decide_True by (by rewrite bool_decide_eq_true_2).
    + by rewrite decide_False by (rewrite bool_decide_eq_false_2; done).
  - rewrite decide_False by done.
    assert (of_object i comb = []) as ->.
    { apply elem_of_nil_inv. intros y Hy. apply Hin.
      apply list_elem_of_filter in Hy as [<- Hy]. subst comb.
      rewrite sorted_reverse_perm in Hy.
      apply (elem_of_zip3_mid time_l id_l pos_l y Hy). }
    rewrite take_nil. by case_decide.
Qed.

(** X1.  [_filter_inputs] on three lists of any lengths never raises (the
    lookup [obj_valid[i]] always finds its key) and leaves the detector
    alone.  With [time_l] empty it returns its three arguments as they are,
    even when [id_l] or [pos_l] is not empty.  Otherwise the lists are first
    cut to the shortest by [zip], the result is a sub-sequence of the
    time-descending arrangement of the zipped triples, its three lists have
    one length, and the eligibility of an id is judged by its count in the
    whole of [id_l], entries beyond the shortest list included. *)
Theorem filter_inputs_any_lists w (time_l id_l : list Z) (pos_l : list Pos) :
  (time_l = [] →
   _filter_inputs time_l id_l pos_l w = (Ret (time_l, id_l, pos_l), w)) ∧
  (time_l ≠ [] →
   let comb := sorted_reverse obs_time (zip3 time_l id_l pos_l) in
   ∃ new_l out,
     _filter_inputs time_l id_l pos_l w = (Ret new_l, w) ∧
     new_l = unzip3 out ∧
     (length new_l.1.1 = length out ∧ length new_l.1.2 = length out ∧
      length new_l.2 = length out) ∧
     length out ≤ length time_l `min` (length id_l `min` length pos_l) ∧
     out `sublist_of` comb ∧
     ∀ i, of_object i out =
          if decide (min_hist_count (self w) ≤ Z.of_nat (count i id_l))%Z
          then take (Z.to_nat (max_hist_count (self w))) (of_object i comb)
          else []).
Proof.
  split.
  - by intros ->.
  - intros Hne comb.
    destruct (filter_inputs_general w time_l id_l pos_l Hne) as (out & Hrun & Hsub & Hout).
    exists (unzip3 out), out. split; [done|]. split; [done|].
    split; [unfold unzip3; cbn [fst snd]; by rewrite !length_map|]. split; [|done].
    apply sublist_length in Hsub.
    rewrite (Permutation_length (sorted_reverse_perm _ _)), zip3_lengths in Hsub.
    done.
Qed.
End FilterMore.

(** ** The training set and the relevance mask *)

Section TrainingSet.
Context {Pos D : Type}.
Variable dist : Pos → Pos → D.
Variable gtb : D → D → bool.
Variable net : NetInput Pos → list Pos.
Implicit Types (l out : list (Z * Z * Pos)) (w : World Pos D).

Lemma StronglySorted_sublist {A} (R : A → A → Prop) (l1 l2 : list A) :
  l1 `sublist_of` l2 → StronglySorted R l2 → StronglySorted R l1.
Proof.
  induction 1 as [|x l1 l2 Hsub IH|x l1 l2 Hsub IH]; intros Hs.
  - constructor.
  - apply StronglySorted_inv in Hs as [Hs Hx]. constructor; [by apply IH|].
    rewrite Forall_forall in Hx |- *. intros y Hy. apply Hx.
    by apply (sublist_subseteq _ _ Hsub).
  - apply StronglySorted_inv in Hs as [Hs _]. by apply IH.
Qed.

Lemma key_desc_map_time l :
  key_desc obs_time l → StronglySorted (λ a b : Z, (b ≤ a)%Z) (map obs_time l).
Proof.
  unfold key_desc. induction 1 as [|x l Hl IH Hx]; simpl; constructor; [done|].
  apply Forall_fmap. eapply Forall_impl; [exact Hx|]. done.
Qed.

Lemma map_const_replicate {A B} (b : B) (l : list A) :
  map (λ _, b) l = replicate (length l) b.
Proof. induction l as [|x l IH]; simpl; [done|]. by rewrite IH. Qed.

Lemma elem_of_map_obs_id i l : i ∈ map obs_id l ↔ of_object i l ≠ [].
Proof.
  unfold of_object. split.
  - intros [x [-> Hx]]%list_elem_of_fmap Hnil.
    assert (x ∈ filter (λ y, obs_id y = obs_id x) l) as Hin
      by by apply list_elem_of_filter.
    rewrite Hnil in Hin. by apply elem_of_nil in Hin.
  - intros Hne. destruct (filter (λ x, obs_id x = i) l) as [|x l'] eqn:E; [done|].
    assert (x ∈ filter (λ x, obs_id x = i) l) as Hin by (rewrite E; left).
    apply list_elem_of_filter in Hin as [<- Hin].
    apply list_elem_of_fmap. by exists x.
Qed.

(** The observations gathered from a history are the entries of its frames
    whose [present] flag holds. *)
Lemma elem_of_observations (h : list (Z * FrameInfo Pos)) x :
  x ∈ observations h ↔
  ∃ frame_info j,
    (obs_time x, frame_info) ∈ h ∧
    frame_info.1.1 !! j = Some (obs_id x) ∧
    frame_info.1.2 !! j = Some (obs_pos x) ∧
    frame_info.2 !! j = Some true.
Proof.
  unfold observations. rewrite list_elem_of_bind. split.
  - intros ([t fi] & Hx & Hkv). simpl in Hx. unfold frame_obs in Hx.
    apply list_elem_of_omap in Hx as ([[i p] b] & Hz & Hsome).
    simpl in Hsome. destruct b; [|done]. injection Hsome as <-.
    apply list_elem_of_lookup in Hz as [j Hj]. rewrite lookup_zip3 in Hj.
    destruct (fi.1.1 !! j) as [i'|] eqn:E1; [|done].
    destruct (fi.1.2 !! j) as [p'|] eqn:E2; [|done].
    destruct (fi.2 !! j) as [b'|] eqn:E3; [|done].
    injection Hj as -> -> ->. exists fi, j. done.
  - intros (fi & j & Hkv & H1 & H2 & H3). exists (obs_time x, fi). split; [|done].
    simpl. unfold frame_obs. apply list_elem_of_omap.
    exists (obs_id x, obs_pos x, true). split; [|by destruct x as [[??]?]].
    apply list_elem_of_lookup. exists j. by rewrite lookup_zip3, H1, H2, H3.
Qed.

(** The filter output behind [_get_inputs]. *)
Lemma get_inputs_out w :
  let h := observations (frame_history (self w)) in
  ∃ out,
    _get_inputs w = (Ret (inputs_of out), w) ∧
    out `sublist_of` sorted_reverse obs_time h ∧
    ∀ i, i ∈ map obs_id out ↔ eligible w i.
Proof.
  intros h. destruct (get_inputs_run w) as (out & Hf & Hin).
  destruct (filter_inputs_spec w h) as (out' & Hf' & Hout).
  rewrite gather_spec in Hf. fold h in Hf. rewrite Hf' in Hf.
  assert (unzip3 out' = unzip3 out) as Heq by congruence.
  apply unzip3_inj in Heq. subst out'. clear Hf.
  exists out. split; [done|].
  assert (∀ i, length (of_object i (sorted_reverse obs_time h)) = length (of_object i h))
    as Hlen.
  { intros i. unfold of_object. by rewrite (sorted_reverse_perm obs_time h). }
  split.
  - destruct h as [|x h'] eqn:Eh.
    + assert (out = []) as ->; [|constructor].
      apply elem_of_nil_inv. intros y Hy.
      assert (y ∈ of_object (obs_id y) out) as Hy'
        by by apply list_elem_of_filter.
      rewrite Hout in Hy'. unfold of_object in Hy'. simpl in Hy'.
      rewrite filter_nil, take_nil in Hy'. case_decide; by apply elem_of_nil in Hy'.
    + destruct (filter_inputs_general w (map obs_time h) (map obs_id h) (map obs_pos h))
        as (out' & Hf'' & Hsub & _); [by rewrite Eh|].
      rewrite zip3_unzip3 in Hsub. unfold unzip3 in Hf'. cbn [fst snd] in Hf'.
      rewrite Eh in Hsub, Hf''. rewrite Hf' in Hf''.
      assert (unzip3 out = unzip3 out') as Heq by (unfold unzip3 at 1; congruence).
      apply unzip3_inj in Heq. by subst out'.
  - intros i. rewrite elem_of_map_obs_id, Hout. unfold eligible. simpl.
    rewrite gather_spec. unfold unzip3. cbn [fst snd].
    rewrite count_map_obs_id. fold h. specialize (Hlen i).
    destruct (of_object i (sorted_reverse obs_time h)) as [|y ys] eqn:Es;
      simpl in Hlen.
    + rewrite take_nil. split; [by case_decide|]. lia.
    + case_decide as Hmin.
      * destruct (Z.to_nat (max_hist_count (self w))) as [|m] eqn:Em; simpl.
        -- split; [done|]. lia.
        -- split; [|done]. intros _. lia.
      * split; [done|]. lia.
Qed.

(** X2.  When [_get_inputs] returns tensors, they are aligned and not empty,
    [obj_mask] is all ones, [obj_ts] is in descending order (latest first),
    and the triples [(time, id, pos)] they hold are a sub-sequence of the
    time-descending arrangement of the present observations: each is an
    entry of a recorded frame whose [present] flag holds, so an entry
    recorded with [present] false is never handed to the predictor. *)
Theorem training_set_latest_first w in_ :
  _get_inputs w = (Ret (Some in_), w) →
  let h := observations (frame_history (self w)) in
  let train := zip3 in_.1.1.2 in_.1.2 in_.1.1.1 in
  in_.1.1.2 ≠ [] ∧
  (length in_.1.1.1 = length in_.1.1.2 ∧ length in_.1.2 = length in_.1.1.2) ∧
  in_.2 = replicate (length in_.1.1.2) true ∧
  StronglySorted (λ a b : Z, (b ≤ a)%Z) in_.1.1.2 ∧
  train `sublist_of` sorted_reverse obs_time h ∧
  ∀ x, x ∈ train →
    ∃ frame_info j,
      (obs_time x, frame_info) ∈ frame_history (self w) ∧
      frame_info.1.1 !! j = Some (obs_id x) ∧
      frame_info.1.2 !! j = Some (obs_pos x) ∧
      frame_info.2 !! j = Some true.
Proof.
  intros Hin h train. destruct (get_inputs_out w) as (out & Hrun & Hsub & _).
  rewrite Hrun in Hin. injection Hin as Hin. unfold inputs_of in Hin.
  case_decide as Hlen; [done|]. injection Hin as <-. subst train. simpl.
  rewrite zip3_unzip3.
  split; [by intros ->%fmap_nil_inv|].
  split; [by rewrite !length_map|].
  split; [by rewrite map_const_replicate|].
  split; [|split; [done|]].
  - apply key_desc_map_time.
    apply (StronglySorted_sublist _ _ _ Hsub), sorted_reverse_sorted.
  - intros x Hx. apply elem_of_observations.
    apply (sublist_subseteq _ _ Hsub) in Hx.
    by rewrite sorted_reverse_perm in Hx.
Qed.

(** X3.  In the triple [predict] returns, the ids are the registry, and the
    mask of an id holds exactly when the id is eligible: [max_hist_count] is
    positive and the id has at least [min_hist_count], and at least one,
    present observations. *)
Theorem relevance_mask_eligible time w ids poss masks w' :
  predict net time w = (Ret (Some (ids, poss, masks)), w') →
  length masks = length ids ∧
  (∀ i, i ∈ ids ↔ i ∈ all_ids (self w)) ∧
  ∀ k i, ids !! k = Some i →
         ∃ b, masks !! k = Some b ∧ (b = true ↔ eligible w i).
Proof.
  intros Hp. destruct (get_inputs_out w) as (out & Hrun & _ & Hel).
  destruct (inputs_of out) as [in_|] eqn:Ein.
  2:{ rewrite (predict_none net time w Hrun) in Hp. done. }
  rewrite (predict_some net time w in_ Hrun) in Hp.
  injection Hp as <- <- <- <-. simpl.
  split; [by rewrite length_map|].
  split; [intros i; apply elem_of_elements|].
  intros k i Hk. exists (bool_decide (i ∈ in_.1.2)).
  rewrite list_lookup_fmap, Hk. split; [done|].
  rewrite bool_decide_eq_true. apply inputs_of_Some in Ein as [-> _]. apply Hel.
Qed.

(** X4.  [detect] returns [None] exactly when no object id is eligible, and
    then it leaves the world, the log of predictor calls included, as it
    was. *)
Theorem undeterminable_iff time actual_poss actual_ids w :
  ((detect dist gtb net time actual_poss actual_ids w).1 = Ret None ↔
   ∀ i, ¬ eligible w i) ∧
  ((∀ i, ¬ eligible w i) →
   detect dist gtb net time actual_poss actual_ids w = (Ret None, w)).
Proof.
  destruct (get_inputs_out w) as (out & Hrun & _ & Hel).
  assert ((∀ i, ¬ eligible w i) ↔ out = []) as Hnil.
  { split.
    - intros Hno. apply elem_of_nil_inv. intros x Hx.
      apply (Hno (obs_id x)), Hel, list_elem_of_fmap. by exists x.
    - intros -> i Hi. apply Hel in Hi. by apply elem_of_nil in Hi. }
  destruct (inputs_of out) as [in_|] eqn:Ein.
  - assert (out ≠ []) as Hne by (intros ->; done).
    split; [|by intros ?%Hnil]. rewrite Hnil.
    split; [|done]. rewrite (detect_some dist gtb net _ _ _ _ _ Hrun). simpl.
    by destruct (detect_loop _ _ _ _ _ _ _).1.
  - apply inputs_of_None in Ein as ->.
    rewrite (detect_none dist gtb net _ _ _ _ Hrun). split; [|done].
    split; [by intros _; apply Hnil|done].
Qed.

(** X5.  Every violation [detect] returns concerns an object id of the
    registry that is eligible: an object with fewer than [min_hist_count]
    present observations, or recorded only with [present] false, never
    yields a violation. *)
Theorem violations_only_eligible time actual_poss actual_ids w viols w' :
  detect dist gtb net time actual_poss actual_ids w = (Ret (Some viols), w') →
  ∀ v, v ∈ viols → object_id v ∈ all_ids (self w) ∧ eligible w (object_id v).
Proof.
  intros Hd v Hv. destruct (get_inputs_out w) as (out & Hrun & _ & Hel).
  destruct (inputs_of out) as [in_|] eqn:Ein.
  2:{ rewrite (detect_none dist gtb net _ _ _ _ Hrun) in Hd. done. }
  destruct (detect_ret_some dist gtb net _ _ _ _ _ _ _ Hrun Hd) as (_ & -> & _).
  apply list_elem_of_bind in Hv as (x & Hv & Hx).
  pose proof (emitted_object_id dist gtb _ _ _ _ _ Hv) as ->.
  split.
  - apply elem_of_elements.
    apply (elem_of_zip3_mid _ _ _ x Hx).
  - apply Hel. apply inputs_of_Some in Ein as [<- _].
    pose proof (pred_entries_mask net _ _ Hx) as Hm.
    unfold emitted in Hv. rewrite Hm in Hv.
    case_bool_decide as Hb; [done|]. simpl in Hv. by apply elem_of_nil in Hv.
Qed.

(** X6.  The violations [detect] returns carry pairwise different object
    ids, in the order of the queried ids, so there are at most as many as
    the registry has ids and at most as many as the predictor returned
    positions. *)
Theorem violations_distinct time actual_poss actual_ids w viols w' :
  detect dist gtb net time actual_poss actual_ids w = (Ret (Some viols), w') →
  map object_id viols `sublist_of` elements (all_ids (self w)) ∧
  NoDup (map object_id viols) ∧
  length viols ≤ size (all_ids (self w)) ∧
  ∃ c, net_calls w' = net_calls w ++ [c] ∧ length viols ≤ length (net c).
Proof.
  intros Hd. destruct (get_inputs_out w) as (out & Hrun & _ & _).
  destruct (inputs_of out) as [in_|] eqn:Ein.
  2:{ rewrite (detect_none dist gtb net _ _ _ _ Hrun) in Hd. done. }
  destruct (detect_ret_some dist gtb net _ _ _ _ _ _ _ Hrun Hd) as (-> & -> & _).
  set (c := net_input w time in_).
  set (f := emitted dist gtb (dist_thresh (self w)) actual_poss actual_ids).
  assert (∀ preds : list (Pos * Z * bool),
            map object_id (preds ≫= f) `sublist_of` preds.*1.*2 ∧
            length (preds ≫= f) ≤ length preds) as Hsub.
  { induction preds as [|x preds [IH1 IH2]]; [split; [constructor|done]|].
    rewrite bind_cons, map_app, length_app. simpl.
    assert (f x = [] ∨ ∃ v, f x = [v] ∧ object_id v = x.1.2) as [->|(v & -> & Hv)].
    { subst f. unfold emitted. destruct x as [[pp i] [|]]; simpl; [|by left].
      case_decide; [|right; by eexists].
      destruct (index i actual_ids ≫= _); [|by left].
      destruct (gtb _ _); [right; by eexists|by left]. }
    - simpl. split; [by constructor|lia].
    - simpl. rewrite Hv. split; [by constructor|lia]. }
  destruct (Hsub (pred_entries net c)) as [Hs Hl].
  assert (map object_id (pred_entries net c ≫= f) `sublist_of`
            elements (all_ids (self w))) as Hs'.
  { etrans; [exact Hs|]. apply zip3_mid_sublist. }
  split; [done|]. split; [|split].
  - apply (sublist_NoDup _ (elements (all_ids (self w)))); [|exact Hs'].
    apply NoDup_elements.
  - apply sublist_length in Hs'. by rewrite length_map in Hs'.
  - exists c. split; [done|]. etrans; [exact Hl|].
    unfold pred_entries. rewrite zip3_lengths. lia.
Qed.
End TrainingSet.

(** ** Exceptions of [detect] and the registry invariant *)

Section DetectMore.
Context {Pos D : Type}.
Variable dist : Pos → Pos → D.
Variable gtb : D → D → bool.
Variable net : NetInput Pos → list Pos.
Implicit Types (w : World Pos D).

Lemma index_Some i l n : index i l = Some n → l !! n = Some i.
Proof.
  revert n. induction l as [|j l IH]; intros n; simpl; [done|].
  case_decide as Hij; [intros [= <-]; by subst|].
  destruct (index i l) as [m|]; simpl; [|done]. intros [= <-]. by apply IH.
Qed.

(** The loop raises only [IndexError], and only at an entry with a true mask
    whose id is first found in [actual_ids] at a position that
    [actual_poss] does not have. *)
Lemma detect_loop_raise actual_poss actual_ids preds violations w e w' :
  detect_loop dist gtb actual_poss actual_ids preds violations w = (Raise e, w') →
  e = IndexError ∧
  ∃ pp i n, (pp, i, true) ∈ preds ∧ index i actual_ids = Some n ∧
            length actual_poss ≤ n.
Proof.
  revert violations. induction preds as [|[[pp i] b] preds IH]; intros violations;
    simpl; [done|].
  assert (∀ v, detect_loop dist gtb actual_poss actual_ids preds v w = (Raise e, w') →
            e = IndexError ∧
            ∃ pp0 i0 n, (pp0, i0, true) ∈ (pp, i, b) :: preds ∧
                        index i0 actual_ids = Some n ∧ length actual_poss ≤ n) as IH'.
  { intros v Hv. destruct (IH v Hv) as (-> & pp0 & i0 & n & Hin & Hn & Hlen).
    split; [done|]. exists pp0, i0, n. split; [by right|done]. }
  destruct b; simpl; [|apply IH'].
  destruct (decide (i ∈ actual_ids)) as [Hi|Hi]; [|apply IH'].
  destruct (index_elem_of i actual_ids Hi) as (n & Hn & _). rewrite Hn.
  destruct (actual_poss !! n) as [a|] eqn:Ea.
  - unfold bind, get_self. simpl. destruct (gtb _ _); apply IH'.
  - intros [= <- <-]. split; [done|]. exists pp, i, n. split; [left|].
    split; [done|]. by apply lookup_ge_None.
Qed.

Lemma detect_loop_bad actual_poss actual_ids preds violations w pp i n :
  (pp, i, true) ∈ preds → index i actual_ids = Some n → length actual_poss ≤ n →
  detect_loop dist gtb actual_poss actual_ids preds violations w = (Raise IndexError, w).
Proof.
  intros Hin Hn Hlen. revert violations.
  induction preds as [|[[pp0 i0] b0] preds IH]; intros violations;
    [by apply elem_of_nil in Hin|].
  simpl. apply elem_of_cons in Hin as [[= <- <- <-]|Hin].
  - simpl. rewrite decide_True by (eapply list_elem_of_lookup_2, index_Some, Hn).
    rewrite Hn. by rewrite (proj2 (lookup_ge_None actual_poss n)).
  - specialize (IH Hin). destruct b0; simpl; [|apply IH].
    destruct (decide (i0 ∈ actual_ids)) as [Hi|Hi]; [|apply IH].
    destruct (index_elem_of i0 actual_ids Hi) as (n0 & Hn0 & _). rewrite Hn0.
    destruct (actual_poss !! n0) as [a|]; [|done].
    unfold bind, get_self. simpl. destruct (gtb _ _); apply IH.
Qed.

(** X7.  The only exception [detect] raises is [IndexError].  It raises
    exactly when the one predictor call has been made and some predicted id
    with a true mask is first found in [actual_ids] at a position that
    [actual_poss] does not have; so with a position for every actual id
    [detect] returns.  A raising call leaves the detector as it was. *)
Theorem detect_errors time actual_poss actual_ids w :
  let r := detect dist gtb net time actual_poss actual_ids w in
  (∀ e, r.1 = Raise e → e = IndexError ∧ self r.2 = self w) ∧
  ((∃ e, r.1 = Raise e) ↔
   ∃ c pp i n,
     net_calls r.2 = net_calls w ++ [c] ∧ (pp, i, true) ∈ pred_entries net c ∧
     index i actual_ids = Some n ∧ length actual_poss ≤ n) ∧
  (length actual_ids ≤ length actual_poss → ∃ viols, r.1 = Ret viols).
Proof.
  intros r. subst r. destruct (get_inputs_run w) as (out & _ & Hrun).
  destruct (inputs_of out) as [in_|] eqn:Ein.
  - pose proof (detect_some dist gtb net time actual_poss actual_ids w in_ Hrun) as Hd.
    cbv zeta in Hd. set (c := net_input w time in_) in *.
    set (w1 := mkWorld (self w) (net_calls w ++ [c])) in *.
    fold (pred_entries net c) in Hd. rewrite Hd. clear Hd.
    pose proof (quiet_detect_loop dist gtb actual_poss actual_ids
                  (pred_entries net c) [] w1) as Hq.
    destruct (detect_loop dist gtb actual_poss actual_ids (pred_entries net c) [] w1)
      as [[v|e] w2] eqn:El; cbn [fst snd] in *; subst w2.
    + split; [done|]. split.
      * split; [by intros [e ?]|].
        intros (c' & pp & i & n & Hc & Hin & Hn & Hlen).
        apply app_inj_tail in Hc as [_ <-].
        by rewrite (detect_loop_bad _ _ _ _ _ _ _ _ Hin Hn Hlen) in El.
      * intros _. by eexists.
    + destruct (detect_loop_raise _ _ _ _ _ _ _ El) as (-> & pp & i & n & Hin & Hn & Hlen).
      split; [by intros e [= <-]|]. split.
      * split; [|by eexists]. intros _. by exists c, pp, i, n.
      * intros Hle. apply index_Some, lookup_lt_Some in Hn. lia.
  - rewrite (detect_none dist gtb net _ _ _ _ Hrun). simpl.
    split; [done|]. split.
    + split; [by intros [e ?]|].
      intros (c & _ & _ & _ & Hc & _).
      apply (f_equal length) in Hc. rewrite length_app in Hc. simpl in Hc. lia.
    + intros _. by eexists.
Qed.

Lemma registry_covers_record_obs time ids (pos : list Pos) present w :
  registry_covers w → registry_covers (record_obs time ids pos present w).2.
Proof.
  intros Hcov. destruct (decide (time ∈ (frame_history (self w)).*1)) as [Hin|Hin].
  - by rewrite record_obs_dup.
  - rewrite record_obs_fresh by done. intros kv i. simpl.
    intros [Hkv| ->%list_elem_of_singleton]%elem_of_app Hi.
    + apply elem_of_union_l. by apply (Hcov kv).
    + apply elem_of_union_r. by apply elem_of_list_to_set.
Qed.

(** X8.  Invariant of the detector: every id of every recorded frame is in
    the registry.  It holds of a fresh detector and is kept by [record_obs]
    (failing or not) and by [detect].  In a state that has it, every id of
    the training tensors is a registry id, hence one of the queried ids. *)
Theorem registry_covers_history :
  (∀ (min_hist max_hist : Z) (thresh : D) (calls : list (NetInput Pos)),
     registry_covers (mkWorld (init min_hist max_hist thresh) calls)) ∧
  (∀ time ids (pos : list Pos) present w,
     registry_covers w → registry_covers (record_obs time ids pos present w).2) ∧
  (∀ time actual_poss actual_ids w,
     registry_covers w →
     registry_covers (detect dist gtb net time actual_poss actual_ids w).2) ∧
  (∀ w in_,
     registry_covers w → _get_inputs w = (Ret (Some in_), w) →
     ∀ i, i ∈ in_.1.2 →
          i ∈ all_ids (self w) ∧
          ∀ time, ∃ tgt, _get_targets time w = (Ret tgt, w) ∧ i ∈ tgt.2).
Proof.
  split; [|split; [|split]].
  - intros ???? kv i Hkv. by apply elem_of_nil in Hkv.
  - intros. by apply registry_covers_record_obs.
  - intros time actual_poss actual_ids w Hcov kv i.
    rewrite (keeps_self_detect dist gtb net). apply Hcov.
  - intros w in_ Hcov Hin i Hi.
    assert (i ∈ all_ids (self w)) as Hreg.
    { destruct (get_inputs_out w) as (out & Hrun & Hsub & _).
      rewrite Hrun in Hin. injection Hin as Hin.
      apply inputs_of_Some in Hin as [Hids _]. rewrite Hids in Hi.
      apply list_elem_of_fmap in Hi as (x & -> & Hx).
      apply (sublist_subseteq _ _ Hsub) in Hx.
      rewrite sorted_reverse_perm in Hx.
      apply elem_of_observations in Hx as (fi & j & Hkv & Hj & _).
      apply (Hcov (obs_time x, fi)); [done|]. simpl.
      by eapply list_elem_of_lookup_2. }
    split; [done|]. intros time.
    exists (replicate (size (all_ids (self w))) time, elements (all_ids (self w))).
    split; [done|]. simpl. by apply elem_of_elements.
Qed.
End DetectMore.

(** ** The heat map in closed form *)

Section HeatmapMore.
Context {Pos : Type}.
Implicit Types (viols : list (Violation Pos)) (obj_mask : list (list Z)).

Lemma arr_add_map (g h : Z → bool) obj_mask :
  arr_add (map (map g) obj_mask) (map (map h) obj_mask) =
  map (map (λ m, g m || h m)) obj_mask.
Proof.
  unfold arr_add. induction obj_mask as [|row obj_mask IH]; simpl; [done|].
  rewrite IH. f_equal. clear IH.
  induction row as [|m row IHr]; simpl; [done|]. by rewrite IHr.
Qed.

Lemma map_map_ext {A B} (f g : A → B) (a : list (list A)) :
  (∀ x, f x = g x) → map (map f) a = map (map g) a.
Proof. intros H. apply map_ext. intros row. by apply map_ext. Qed.

Lemma heatmap_loop_closed viols (g : Z → bool) obj_mask :
  forallb is_position viols = true →
  heatmap_loop viols (PyArr (map (map g) obj_mask)) obj_mask =
  Ret (PyArr (map (map (λ m, g m || hit viols m)) obj_mask)).
Proof.
  revert g. induction viols as [|[i pp a|i pp] viols IH]; intros g Hpos;
    simpl in *; [| |done].
  - do 2 f_equal. apply map_map_ext. intros m. by rewrite orb_false_r.
  - unfold mask_eq. rewrite arr_add_map, IH by done.
    do 2 f_equal. apply map_map_ext. intros m. by rewrite orb_assoc.
Qed.

Lemma heatmap_loop_app viols1 viols2 hmap obj_mask :
  heatmap_loop (viols1 ++ viols2) hmap obj_mask =
  obind (heatmap_loop viols1 hmap obj_mask) (λ hmap', heatmap_loop viols2 hmap' obj_mask).
Proof.
  revert hmap. induction viols1 as [|v viols1 IH]; intros hmap; simpl; [done|].
  destruct (fill_heatmap v hmap obj_mask) as [h|e]; simpl; [apply IH|done].
Qed.

Lemma forallb_Permutation {A} (f : A → bool) (l1 l2 : list A) :
  l1 ≡ₚ l2 → forallb f l1 = forallb f l2.
Proof.
  induction 1 as [|x l1 l2 _ IH|x y l|l1 l2 l3 _ IH1 _ IH2]; simpl;
    [done|by rewrite IH|by destruct (f x), (f y)|by rewrite IH1].
Qed.

Lemma existsb_Permutation {A} (f : A → bool) (l1 l2 : list A) :
  l1 ≡ₚ l2 → existsb f l1 = existsb f l2.
Proof.
  induction 1 as [|x l1 l2 _ IH|x y l|l1 l2 l3 _ IH1 _ IH2]; simpl;
    [done|by rewrite IH|by destruct (f x), (f y)|by rewrite IH1].
Qed.

(** X9.  For a sequence without [PresenceViolation] (the empty and the
    absent one included) [make_voe_heatmap] returns the mask compared with
    the violating ids: pixel by pixel, whether some violation carries the
    object id of the mask there.  Hence the heat map has the shape of the
    mask and does not depend on the order of the violations. *)
Theorem heatmap_of_positions (viols : option (list (Violation Pos))) obj_mask :
  forallb is_position (default [] viols) = true →
  make_voe_heatmap viols obj_mask =
    Ret (PyArr (map (map (hit (default [] viols))) obj_mask)) ∧
  ∀ viols', viols' ≡ₚ default [] viols →
            make_voe_heatmap (Some viols') obj_mask = make_voe_heatmap viols obj_mask.
Proof.
  intros Hpos.
  assert (∀ vs : list (Violation Pos), forallb is_position vs = true →
                make_voe_heatmap (Some vs) obj_mask =
                Ret (PyArr (map (map (hit vs)) obj_mask))) as Hclosed.
  { intros vs Hvs. unfold make_voe_heatmap, zeros_like.
    change (default [] (Some vs)) with vs.
    by rewrite (heatmap_loop_closed vs (λ _, false) obj_mask Hvs). }
  assert (make_voe_heatmap viols obj_mask =
          Ret (PyArr (map (map (hit (default [] viols))) obj_mask))) as Hv.
  { destruct viols as [vs|]; [by apply Hclosed|]. by apply (Hclosed []). }
  split; [done|]. intros viols' Hperm.
  rewrite Hv, Hclosed by (by rewrite (forallb_Permutation _ _ _ Hperm)).
  do 2 f_equal. apply map_map_ext. intros m. unfold hit.
  by apply existsb_Permutation.
Qed.

(** X10.  For a sequence whose first [PresenceViolation] comes after the
    [PositionViolation]s [ps], [make_voe_heatmap] returns [None] when only
    [PresenceViolation]s follow it, and raises [TypeError] when a
    [PositionViolation] follows it; it never returns a buffer. *)
Theorem heatmap_after_presence (ps rest : list (Violation Pos)) i pp obj_mask :
  forallb is_position ps = true →
  make_voe_heatmap (Some (ps ++ PresenceViolation i pp :: rest)) obj_mask =
  if forallb is_presence rest then Ret PyNone else Raise TypeError.
Proof.
  intros Hps. unfold make_voe_heatmap, zeros_like.
  change (default [] (Some ?l)) with l.
  rewrite heatmap_loop_app, (heatmap_loop_closed ps (λ _, false) obj_mask Hps).
  simpl. apply heatmap_loop_None.
Qed.
End HeatmapMore.

(** ** The scene driver *)

Section DriverFacts.
Context {Pos D Depth : Type}.
Variable dist : Pos → Pos → D.
Variable gtb : D → D → bool.
Variable net : NetInput Pos → list Pos.
Variable calc_world_pos :
  Depth → list (list Z) → outcome (list Z * list Pos * list bool).
Variable show_scene : Z → Depth → pyval → outcome unit.
Variable thresh : D.
Implicit Types (w : World Pos D) (data : SceneData Depth).

(** The outcomes of [detect]: [None] without a predictor call, or one call
    followed by a list or by [IndexError]. *)
Lemma detect_cases time actual_poss actual_ids w :
  let r := detect dist gtb net time actual_poss actual_ids w in
  r = (Ret None, w) ∨
  ∃ c, r.2 = mkWorld (self w) (net_calls w ++ [c]) ∧
       (r.1 = Raise IndexError ∨ ∃ viols, r.1 = Ret (Some viols)).
Proof.
  intros r. subst r. destruct (get_inputs_run w) as (out & _ & Hrun).
  destruct (inputs_of out) as [in_|] eqn:Ein.
  - right. pose proof (detect_some dist gtb net time actual_poss actual_ids w in_ Hrun) as Hd.
    cbv zeta in Hd. rewrite Hd. eexists. split; [done|]. cbn [fst snd].
    match goal with |- context [detect_loop ?a ?b ?c ?d ?e ?f ?g] =>
      destruct (detect_loop a b c d e f g) as [[v|e'] w2] eqn:El end; cbn [fst snd].
    + right. by eexists.
    + left. by destruct (detect_loop_raise dist gtb _ _ _ _ _ _ _ El) as [-> _].
  - left. by apply detect_none.
Qed.

Lemma heatmap_loop_raise (viols : list (Violation Pos)) hmap obj_mask e :
  heatmap_loop viols hmap obj_mask = Raise e → e = TypeError.
Proof.
  revert hmap. induction viols as [|[i pp a|i pp] viols IH]; intros hmap; simpl;
    [done| |apply IH].
  destruct hmap; simpl; [by intros [= <-]|apply IH].
Qed.

Lemma not_elem_of_seq_keys (k : nat) :
  Z.of_nat k ∉ map Z.of_nat (seq 0 k).
Proof.
  intros [j [Hj Hin]]%list_elem_of_fmap. apply Nat2Z.inj in Hj. subst j.
  apply list_elem_of_In, in_seq in Hin. lia.
Qed.

(** Invariant of the loop of [full_voe], from a detector that holds the
    records of the frames before [k]. *)
Lemma full_voe_loop_inv data m k w out :
  (frame_history (self w)).*1 = map Z.of_nat (seq 0 k) →
  let r := full_voe_loop dist gtb net calc_world_pos show_scene data (seq k m) w out in
  ∃ j recs ext,
    j ≤ m ∧
    Forall2 (frame_record calc_world_pos data) (seq k j) recs ∧
    frame_history (self r.1.2) = frame_history (self w) ++ recs ∧
    all_ids (self r.1.2) = all_ids (self w) ∪ record_ids recs ∧
    (min_hist_count (self r.1.2) = min_hist_count (self w) ∧
     max_hist_count (self r.1.2) = max_hist_count (self w) ∧
     dist_thresh (self r.1.2) = dist_thresh (self w)) ∧
    r.2 = out ++ ext ∧
    length (net_calls r.1.2) ≤ length (net_calls w) + m ∧
    (r.1.1 = Ret tt → j = m) ∧
    (∀ e, r.1.1 = Raise e → j < m ∧ full_voe_exception calc_world_pos show_scene e).
Proof.
  revert k w out. induction m as [|m IH]; intros k w out Hkeys r; subst r.
  { exists 0, [], []. simpl. rewrite !app_nil_r. unfold record_ids. simpl.
    rewrite (right_id_L ∅ (∪)).
    repeat split; try done; try constructor; lia. }
  simpl.
  assert (∀ (w1 : World Pos D) (o : list (Output Pos)) e,
            self w1 = self w → length (net_calls w1) ≤ length (net_calls w) + 1 →
            full_voe_exception calc_world_pos show_scene e →
            ∃ j recs ext,
              j ≤ S m ∧
              Forall2 (frame_record calc_world_pos data) (seq k j) recs ∧
              frame_history (self w1) = frame_history (self w) ++ recs ∧
              all_ids (self w1) = all_ids (self w) ∪ record_ids recs ∧
              (min_hist_count (self w1) = min_hist_count (self w) ∧
               max_hist_count (self w1) = max_hist_count (self w) ∧
               dist_thresh (self w1) = dist_thresh (self w)) ∧
              (out ++ [FrameLine (Z.of_nat k)]) ++ o = out ++ ext ∧
              length (net_calls w1) ≤ length (net_calls w) + S m ∧
              (@Raise unit e = Ret tt → j = S m) ∧
              (∀ e', @Raise unit e = Raise e' →
                     j < S m ∧ full_voe_exception calc_world_pos show_scene e')) as Hfail.
  { intros w1 o e Hself Hcalls He. exists 0, [], ([FrameLine (Z.of_nat k)] ++ o).
    rewrite Hself, !app_nil_r. unfold record_ids. simpl.
    rewrite (right_id_L ∅ (∪)), <- app_assoc.
    split; [lia|]. split; [constructor|]. do 4 (split; [done|]).
    split; [lia|]. split; [done|]. intros e0 [= <-]. split; [lia|done]. }
  destruct (scene_depth data !! k) as [depth|] eqn:Ed.
  2:{ specialize (Hfail w [] IndexError eq_refl). rewrite app_nil_r in Hfail.
      apply Hfail; [lia|by left]. }
  destruct (scene_idxs data !! k) as [masks|] eqn:Em.
  2:{ specialize (Hfail w [] IndexError eq_refl). rewrite app_nil_r in Hfail.
      apply Hfail; [lia|by left]. }
  destruct (calc_world_pos depth masks) as [[[obj_ids obj_pos] obj_present]|e] eqn:Ec.
  2:{ specialize (Hfail w [] e eq_refl). rewrite app_nil_r in Hfail.
      apply Hfail; [lia|]. right. right. left. by exists depth, masks. }
  pose proof (keeps_self_detect dist gtb net (Z.of_nat k) obj_pos obj_ids w) as Hself.
  pose proof (detect_cases (Z.of_nat k) obj_pos obj_ids w) as Hcases. cbv zeta in Hcases.
  destruct (detect dist gtb net (Z.of_nat k) obj_pos obj_ids w) as [[viols|e] w1] eqn:Edet;
    cbn [fst snd] in *.
  2:{ specialize (Hfail w1 [] e Hself). rewrite app_nil_r in Hfail.
      destruct Hcases as [[=]|(c & -> & [[= ->]|[v [=]]])].
      apply Hfail; [|by left]. simpl. rewrite length_app. simpl. lia. }
  assert (length (net_calls w1) ≤ length (net_calls w) + 1) as Hcalls.
  { destruct Hcases as [[= _ <-]|(c & -> & _)]; [lia|].
    simpl. rewrite length_app. simpl. lia. }
  destruct (make_voe_heatmap viols masks) as [voe_hmap|e] eqn:Eh.
  2:{ specialize (Hfail w1 [] e Hself Hcalls). rewrite app_nil_r in Hfail.
      apply Hfail. right. left. by apply heatmap_loop_raise in Eh. }
  destruct (show_scene (Z.of_nat k) depth voe_hmap) as [[]|e] eqn:Es.
  2:{ apply (Hfail w1 (output_voe viols) e Hself Hcalls).
      do 3 right. by exists (Z.of_nat k), depth, voe_hmap. }
  assert (Z.of_nat k ∉ (frame_history (self w1)).*1) as Hfresh
    by (rewrite Hself, Hkeys; apply not_elem_of_seq_keys).
  rewrite (record_obs_fresh _ _ _ _ _ Hfresh). rewrite Hself.
  set (w2 := mkWorld _ (net_calls w1)).
  set (out2 := (_ ++ output_voe viols) ++ _).
  destruct (IH (S k) w2 out2) as (j & recs & ext & Hj & Hrecs & Hhist & Hids & Hconst
                                    & Hout & Hnet & Hret & Hraise).
  { subst w2. cbn [self frame_history]. rewrite fmap_app, Hkeys.
    by rewrite seq_S, map_app. }
  cbv zeta in *.
  exists (S j), ((Z.of_nat k, (obj_ids, obj_pos, obj_present)) :: recs),
         ([FrameLine (Z.of_nat k)] ++ output_voe viols
            ++ [Figure (Z.of_nat k) voe_hmap] ++ ext).
  split; [lia|]. split.
  { simpl. constructor; [|done]. exists depth, masks. done. }
  split; [rewrite Hhist; subst w2; simpl; by rewrite <- app_assoc|].
  split.
  { rewrite Hids. subst w2. simpl. unfold record_ids. simpl.
    by rewrite (assoc_L (∪)). }
  split; [destruct Hconst as (-> & -> & ->); by subst w2|].
  split; [rewrite Hout; subst out2; by rewrite <- !app_assoc|].
  split; [subst w2; simpl in Hnet; lia|].
  split; [intros Hr; by rewrite (Hret Hr)|].
  intros e He. destruct (Hraise e He) as [? ?]. split; [lia|done].
Qed.
Lemma frame_record_keys data k (recs : list (Z * FrameInfo Pos)) j :
  Forall2 (frame_record calc_world_pos data) (seq k j) recs →
  recs.*1 = map Z.of_nat (seq k j).
Proof.
  revert k recs. induction j as [|j IH]; intros k recs; simpl.
  - by intros ->%Forall2_nil_inv_l.
  - intros (rec & recs' & Hrec & Hrecs & ->)%Forall2_cons_inv_l. simpl.
    destruct Hrec as (_ & _ & _ & _ & _ & ->). f_equal. by apply IH.
Qed.

(** X11.  [full_voe] never trips the assertion of [record_obs]: the frame
    numbers of [range] are new keys of a fresh detector.  When it ends, by
    returning or by an exception, the detector holds, in order, exactly the
    records of the frames completed, frame [n] under key [n] with the result
    of [calc_world_pos] for that frame; the registry is the union of their
    ids; the counts are 3 and 8.  It returns only after all frames; an
    exception is an [IndexError] (a frame missing from the depth maps or the
    masks, or [detect]), a [TypeError] (the heat map), or one raised by
    [calc_world_pos] or [show_scene]. *)
Theorem full_voe_history data :
  let r := full_voe dist gtb net calc_world_pos show_scene thresh data in
  ∃ j recs,
    j ≤ length (objs data) ∧
    Forall2 (frame_record calc_world_pos data) (seq 0 j) recs ∧
    frame_history (self r.1.2) = recs ∧
    (frame_history (self r.1.2)).*1 = map Z.of_nat (seq 0 j) ∧
    all_ids (self r.1.2) = record_ids recs ∧
    (min_hist_count (self r.1.2) = 3%Z ∧ max_hist_count (self r.1.2) = 8%Z ∧
     dist_thresh (self r.1.2) = thresh) ∧
    (r.1.1 = Ret tt → j = length (objs data)) ∧
    (∀ e, r.1.1 = Raise e →
          j < length (objs data) ∧ full_voe_exception calc_world_pos show_scene e) ∧
    ((∀ depth masks, calc_world_pos depth masks ≠ Raise AssertionError) →
     (∀ frame_num depth hmap, show_scene frame_num depth hmap ≠ Raise AssertionError) →
     r.1.1 ≠ Raise AssertionError).
Proof.
  intros r. subst r. unfold full_voe.
  destruct (full_voe_loop_inv data (length (objs data)) 0
              (mkWorld (init 3 8 thresh) []) [])
    as (j & recs & ext & Hj & Hrecs & Hhist & Hids & Hconst & _ & _ & Hret & Hraise);
    [done|].
  cbv zeta in *. exists j, recs. simpl in Hhist, Hids, Hconst.
  rewrite (left_id_L ∅ (∪)) in Hids.
  split; [done|]. split; [done|]. split; [done|].
  split; [rewrite Hhist; by apply (frame_record_keys data)|].
  split; [done|]. split; [done|]. split; [done|]. split; [done|].
  intros Hcalc Hshow Hr. destruct (Hraise _ Hr) as [_ [?|[?|[(d & m & ?)|(f & d & h & ?)]]]];
    [done|done|by eapply Hcalc|by eapply Hshow].
Qed.

Lemma detect_fresh time actual_poss actual_ids :
  detect dist gtb net time actual_poss actual_ids (mkWorld (init 3 8 thresh) []) =
  (Ret None, mkWorld (init 3 8 thresh) []).
Proof. reflexivity. Qed.

(** X12.  [full_voe] never asks the predictor in frame 0, so a run makes at
    most one predictor call less than it has frames; and when frame 0 gets
    as far as [show_scene], it is shown the all-false heat map of the shape
    of the mask and no violation is printed for it. *)
Theorem full_voe_first_frame data :
  let r := full_voe dist gtb net calc_world_pos show_scene thresh data in
  length (net_calls r.1.2) ≤ length (objs data) - 1 ∧
  ∀ depth masks rec,
    objs data ≠ [] →
    scene_depth data !! 0 = Some depth → scene_idxs data !! 0 = Some masks →
    calc_world_pos depth masks = Ret rec →
    (∀ e, show_scene 0 depth (PyArr (zeros_like masks)) = Raise e →
          r = (Raise e, mkWorld (init 3 8 thresh) [], [FrameLine 0])) ∧
    (show_scene 0 depth (PyArr (zeros_like masks)) = Ret tt →
     ∃ ext, r.2 = [FrameLine 0; Figure 0 (PyArr (zeros_like masks))] ++ ext).
Proof.
  intros r. subst r. unfold full_voe.
  destruct (objs data) as [|u us] eqn:Eobjs; [split; [simpl; lia|by intros]|].
  cbn [length seq full_voe_loop].
  change (Z.of_nat 0) with 0%Z. cbn [app].
  destruct (scene_depth data !! 0) as [depth|] eqn:Ed;
    [|split; [simpl; lia|by intros]].
  destruct (scene_idxs data !! 0) as [masks|] eqn:Em;
    [|split; [simpl; lia|by intros]].
  destruct (calc_world_pos depth masks) as [[[obj_ids obj_pos] obj_present]|e] eqn:Ec;
    [|split; [simpl; lia|intros ? ? ? _ [= <-] [= <-]; by rewrite Ec]].
  rewrite detect_fresh.
  change (make_voe_heatmap None masks) with (Ret (PyArr (zeros_like masks))).
  change (output_voe (Pos:=Pos) None) with (@nil (Output Pos)). cbn [app].
  destruct (show_scene 0 depth (PyArr (zeros_like masks))) as [[]|e] eqn:Es.
  2:{ split; [simpl; lia|]. intros d m rec _ [= <-] [= <-] _.
      rewrite Es. split; [by intros e' [= <-]|done]. }
  rewrite record_obs_fresh by (simpl; apply not_elem_of_nil).
  match goal with |- context [full_voe_loop _ _ _ _ _ _ ?fr ?w2 ?o2] =>
    destruct (full_voe_loop_inv data (length us) 1 w2 o2)
      as (j & recs & ext & _ & _ & _ & _ & _ & Hout & Hnet & _ & _); [done|]
  end.
  cbv zeta in Hout, Hnet. split.
  - etrans; [exact Hnet|]. simpl. lia.
  - intros d m rec _ [= <-] [= <-] _. rewrite Es. split; [done|]. intros _.
    exists ext. exact Hout.
Qed.

End DriverFacts.

(** ** The agent's mask helpers *)

Section Masks.

Lemma pixel_zip_with {A B C} (f : A → B → C) (a : list (list A)) (b : list (list B)) r c :
  pixel (zip_with (zip_with f) a b) r c =
  x ← pixel a r c; y ← pixel b r c; Some (f x y).
Proof.
  unfold pixel. rewrite lookup_zip_with.
  destruct (a !! r) as [ra|]; simpl; [|done].
  destruct (b !! r) as [rb|]; simpl.
  - by rewrite lookup_zip_with.
  - by destruct (ra !! c).
Qed.

Lemma shape_zip_with {A B C} (f : A → B → C) (a : list (list A)) (b : list (list B)) :
  shape b = shape a → shape (zip_with (zip_with f) a b) = shape a.
Proof.
  unfold shape. revert b. induction a as [|ra a IH]; intros [|rb b]; simpl; try done.
  intros [= Hr Hs]. f_equal; [rewrite length_zip_with; lia|by apply IH].
Qed.

Lemma pixel_shape {A B} (a : list (list A)) (b : list (list B)) r c :
  shape a = shape b → is_Some (pixel a r c) ↔ is_Some (pixel b r c).
Proof.
  unfold shape, pixel. intros Hs.
  assert (length <$> a !! r = length <$> b !! r) as Hr.
  { change (length <$> a = length <$> b) in Hs.
    by rewrite <- !list_lookup_fmap, Hs. }
  destruct (a !! r) as [ra|], (b !! r) as [rb|]; simpl in *; try done.
  injection Hr as Hr. rewrite !lookup_lt_is_Some, Hr. done.
Qed.

(** With masks of the shape of [flat_mask] the loop returns an array of that
    shape, in which a pixel covered by no mask keeps its value and a covered
    pixel holds the id paired with the last mask that covers it. *)
Lemma squash_loop_ok (pairs : list (list (list bool) * Z)) (flat_mask : list (list Z)) :
  Forall (λ p, shape p.1 = shape flat_mask) pairs →
  ∃ out,
    squash_loop pairs flat_mask = Ret out ∧ shape out = shape flat_mask ∧
    ∀ r c x, pixel flat_mask r c = Some x →
      ((∀ p, p ∈ pairs → pixel p.1 r c = Some false) → pixel out r c = Some x) ∧
      (∀ pre m id_ post,
         pairs = pre ++ (m, id_) :: post → pixel m r c = Some true →
         (∀ p, p ∈ post → pixel p.1 r c = Some false) →
         pixel out r c = Some id_).
Proof.
  revert flat_mask. induction pairs as [|[m id_] pairs IH]; intros flat_mask Hall.
  - exists flat_mask. split; [done|]. split; [done|]. intros r c x Hx.
    split; [done|]. intros [|??] ???; done.
  - apply Forall_cons in Hall as [Hm Hall]. simpl in Hm. simpl.
    unfold bool_assign. rewrite decide_True by done. simpl.
    set (fm := zip_with _ flat_mask m).
    assert (shape fm = shape flat_mask) as Hfm by by apply shape_zip_with.
    destruct (IH fm) as (out & Hrun & Hshape & Hpix).
    { eapply Forall_impl; [exact Hall|]. simpl. intros p ->. done. }
    exists out. split; [done|]. split; [congruence|].
    intros r c x Hx.
    assert (∃ b, pixel m r c = Some b) as [b Hb].
    { apply (pixel_shape m flat_mask r c Hm). by eexists. }
    assert (pixel fm r c = Some (if b then id_ else x)) as Hfmx.
    { subst fm. by rewrite pixel_zip_with, Hx, Hb. }
    destruct (Hpix r c _ Hfmx) as [Hnone Hlast]. split.
    + intros Hno. rewrite Hnone by (intros p Hp; apply Hno; by right).
      pose proof (Hno (m, id_) ltac:(left)) as Hm0. simpl in Hm0.
      rewrite Hm0 in Hb. by injection Hb as <-.
    + intros pre m' id' post Heq Hcov Hpost. destruct pre as [|p0 pre].
      * injection Heq as <- <- <-. rewrite Hnone by done.
        rewrite Hcov in Hb. by injection Hb as <-.
      * injection Heq as <- ->. by apply (Hlast pre m' id' post).
Qed.

Lemma squash_loop_bad (pairs : list (list (list bool) * Z)) (flat_mask : list (list Z)) :
  Exists (λ p, shape p.1 ≠ shape flat_mask) pairs →
  squash_loop pairs flat_mask = Raise IndexError.
Proof.
  revert flat_mask. induction pairs as [|[m id_] pairs IH]; intros flat_mask Hex.
  - by apply Exists_nil in Hex.
  - simpl. unfold bool_assign.
    destruct (decide (shape m = shape flat_mask)) as [Hm|Hm]; [|done]. simpl.
    apply IH. apply Exists_cons in Hex as [Hex|Hex]; [done|].
    eapply Exists_impl; [exact Hex|]. simpl. intros p Hp.
    by rewrite shape_zip_with.
Qed.

(** X13.  [squash_masks(ref, mask_l, ids)] raises, and then [IndexError],
    exactly when one of the masks paired by [zip] has not the shape of
    [ref].  Otherwise it returns an array of the shape of [ref] in which a
    pixel covered by none of the paired masks is -1 and a covered pixel
    holds the id paired with the last mask covering it: where masks overlap
    the later object wins. *)
Theorem squash_masks_last_wins {A} (ref : list (list A))
    (mask_l : list (list (list bool))) (ids : list Z) :
  let pairs := zip mask_l ids in
  (Exists (λ p, shape p.1 ≠ shape ref) pairs →
   squash_masks ref mask_l ids = Raise IndexError) ∧
  (Forall (λ p, shape p.1 = shape ref) pairs →
   ∃ out,
     squash_masks ref mask_l ids = Ret out ∧ shape out = shape ref ∧
     ∀ r c, is_Some (pixel ref r c) →
       ((∀ p, p ∈ pairs → pixel p.1 r c = Some false) →
        pixel out r c = Some (-1)%Z) ∧
       (∀ pre m id_ post,
          pairs = pre ++ (m, id_) :: post → pixel m r c = Some true →
          (∀ p, p ∈ post → pixel p.1 r c = Some false) →
          pixel out r c = Some id_)).
Proof.
  intros pairs. unfold squash_masks. fold pairs.
  set (fm := map (map (λ _, (-1)%Z)) ref).
  assert (shape fm = shape ref) as Hfm.
  { subst fm. unfold shape. rewrite map_map. apply map_ext. intros row.
    by rewrite length_map. }
  split.
  - intros Hex. apply squash_loop_bad. eapply Exists_impl; [exact Hex|].
    simpl. intros p Hp. by rewrite Hfm.
  - intros Hall. destruct (squash_loop_ok pairs fm) as (out & Hrun & Hshape & Hpix).
    { eapply Forall_impl; [exact Hall|]. simpl. intros p Hp. by rewrite Hfm. }
    exists out. split; [done|]. split; [congruence|]. intros r c Hrc.
    apply Hpix. subst fm. unfold pixel in *. rewrite list_lookup_fmap.
    destruct (ref !! r) as [row|]; simpl in *; [|by destruct Hrc].
    rewrite list_lookup_fmap. destruct (row !! c); simpl in *; [done|by destruct Hrc].
Qed.
Lemma zip_with_map_self {A B} (h : B → A → B) (g : A → B) (am : list (list A)) :
  zip_with (zip_with h) (map (map g) am) am = map (map (λ a, h (g a) a)) am.
Proof.
  induction am as [|row am IH]; simpl; [done|]. rewrite IH. f_equal.
  clear IH. induction row as [|a row IHr]; simpl; [done|]. by rewrite IHr.
Qed.

Lemma relabel_loop_px ids out_id cutoff (g : Z → Z) (am : list (list Z)) :
  relabel_loop ids out_id cutoff (map (map g) am) am =
  map (map (λ a, relabel_px ids out_id cutoff (g a) a)) am.
Proof.
  revert out_id g. induction ids as [|mask_id ids IH]; intros out_id g; simpl;
    [done|].
  unfold relabel.
  rewrite (zip_with_map_self
             (λ o a, if decide (a = (mask_id - cutoff)%Z) then Z.of_nat out_id else o)).
  by rewrite IH.
Qed.

Lemma index_None i l : i ∉ l → index i l = None.
Proof.
  induction l as [|j l IH]; simpl; [done|]. intros [Hne Hl]%not_elem_of_cons.
  rewrite decide_False by done. by rewrite IH.
Qed.

Lemma relabel_px_index ids out_id cutoff o a :
  NoDup ids →
  relabel_px ids out_id cutoff o a =
  match index (a + cutoff)%Z ids with
  | Some k => Z.of_nat (out_id + k)
  | None => o
  end.
Proof.
  intros Hnd. revert out_id o.
  induction Hnd as [|mask_id ids Hnot Hnd IH]; intros out_id o; simpl; [done|].
  rewrite IH. destruct (decide (a = (mask_id - cutoff)%Z)) as [->|Hne].
  - rewrite decide_True by lia.
    replace (mask_id - cutoff + cutoff)%Z with mask_id by lia.
    rewrite index_None by done. f_equal. lia.
  - rewrite decide_False by lia.
    destruct (index (a + cutoff)%Z ids) as [k|]; simpl; [|done]. f_equal. lia.
Qed.

Lemma valid_ids_nil shape0 cutoff cls : (shape0 ≤ cutoff)%Z → valid_ids shape0 cutoff cls = [].
Proof. intros H. unfold valid_ids. by rewrite seqZ_nil by lia. Qed.

(** The valid ids from channel [s] on, [len] channels at most. *)
Lemma valid_from_cons (s len cutoff c : Z) (cls : list Z) :
  (0 < len)%Z →
  omap (λ x : Z * Z, if decide (x.2 = 1%Z) then Some (x.1 + cutoff)%Z else None)
       (zip (seqZ s len) (c :: cls)) =
  (if decide (c = 1%Z) then [(s + cutoff)%Z] else []) ++
  omap (λ x : Z * Z, if decide (x.2 = 1%Z) then Some (x.1 + cutoff)%Z else None)
       (zip (seqZ (s + 1) (len - 1)) cls).
Proof.
  intros Hlen. rewrite seqZ_cons by done. simpl.
  replace (Z.succ s) with (s + 1)%Z by lia.
  replace (Z.pred len) with (len - 1)%Z by lia.
  by destruct (decide (c = 1%Z)).
Qed.

Lemma valid_from_lb (s len cutoff : Z) (cls : list Z) y :
  y ∈ omap (λ x : Z * Z, if decide (x.2 = 1%Z) then Some (x.1 + cutoff)%Z else None)
        (zip (seqZ s len) cls) →
  (s + cutoff ≤ y)%Z.
Proof.
  revert s len. induction cls as [|c cls IH]; intros s len.
  - destruct (seqZ s len); simpl; by intros ?%elem_of_nil.
  - destruct (decide (0 < len)%Z) as [Hlen|Hlen].
    + rewrite valid_from_cons by done. intros [Hy|Hy]%elem_of_app.
      * destruct (decide (c = 1%Z)); [|by apply elem_of_nil in Hy].
        apply list_elem_of_singleton in Hy. lia.
      * apply IH in Hy. lia.
    + rewrite seqZ_nil by lia. by intros ?%elem_of_nil.
Qed.

Lemma valid_from_index (s len cutoff : Z) (cls : list Z) x :
  let l := omap (λ x : Z * Z, if decide (x.2 = 1%Z) then Some (x.1 + cutoff)%Z else None)
                (zip (seqZ s len) cls) in
  NoDup l ∧
  index x l =
  if decide (s + cutoff ≤ x < s + cutoff + len)%Z then
    match cls !! Z.to_nat (x - s - cutoff) with
    | Some c =>
        if decide (c = 1%Z)
        then Some (count 1 (take (Z.to_nat (x - s - cutoff)) cls)) else None
    | None => None
    end
  else None.
Proof.
  revert s len. induction cls as [|c cls IH]; intros s len l; subst l.
  - destruct (seqZ s len); simpl; (split; [constructor|by case_decide]).
  - destruct (decide (0 < len)%Z) as [Hlen|Hlen].
    2:{ rewrite seqZ_nil by lia. simpl. split; [constructor|].
        rewrite decide_False by lia. done. }
    rewrite valid_from_cons by done.
    destruct (IH (s + 1)%Z (len - 1)%Z) as [Hnd Hidx]. cbv zeta in Hnd, Hidx.
    set (l' := omap _ (zip (seqZ (s + 1) (len - 1)) cls)) in *.
    assert ((s + cutoff)%Z ∉ l') as Hnot.
    { intros Hin. apply valid_from_lb in Hin. lia. }
    destruct (decide (x = (s + cutoff)%Z)) as [->|Hx].
    + destruct (decide (s + cutoff ≤ s + cutoff < s + cutoff + len)%Z) as [_|Hr]; [|lia].
      replace (s + cutoff - s - cutoff)%Z with 0%Z by lia. simpl.
      destruct (decide (c = 1%Z)) as [->|Hc]; simpl.
      * split; [by constructor|]. by rewrite decide_True.
      * split; [done|]. by apply index_None.
    + assert (∀ j, (s + cutoff < x)%Z → j = Z.to_nat (x - (s + 1) - cutoff) →
                   Z.to_nat (x - s - cutoff) = S j) as Hj by lia.
      assert (index x ((if decide (c = 1%Z) then [(s + cutoff)%Z] else []) ++ l') =
              (if decide (c = 1%Z) then S <$> index x l' else index x l')) as ->.
      { destruct (decide (c = 1%Z)); simpl; [|done]. by rewrite decide_False. }
      split.
      { destruct (decide (c = 1%Z)); simpl; [by constructor|done]. }
      rewrite Hidx.
      destruct (decide (s + cutoff ≤ x < s + cutoff + len)%Z) as [Hr|Hr].
      * destruct (decide (s + 1 + cutoff ≤ x < s + 1 + cutoff + (len - 1))%Z)
          as [_|Hr']; [|lia].
        rewrite (Hj (Z.to_nat (x - (s + 1) - cutoff))) by lia. simpl.
        destruct (cls !! _) as [c'|]; simpl; [|by destruct (decide (c = 1%Z))].
        unfold count. rewrite filter_cons.
        by destruct (decide (c' = 1%Z)), (decide (c = 1%Z)).
      * destruct (decide (s + 1 + cutoff ≤ x < s + 1 + cutoff + (len - 1))%Z)
          as [Hr'|_]; [lia|]. by destruct (decide (c = 1%Z)).
Qed.

Lemma count_take_lt (cls : list Z) j :
  cls !! j = Some 1%Z → count 1 (take j cls) < count 1 cls.
Proof.
  intros Hj. rewrite <- (take_drop_middle cls j 1%Z Hj) at 2.
  unfold count. rewrite filter_app, length_app, filter_cons_True by done.
  simpl. lia.
Qed.

(** X14.  [prob_to_mask], from the two [argmax] results on, relabels the
    pixels channel by channel: a pixel whose winning channel [a] lies in
    [cutoff .. shape0 - 1] and is classified as an object (class 1) gets the
    number of object channels before [a]; every other pixel gets -1.  So
    the output has the shape of [am], and its labels other than -1 are the
    ranks [0 .. n-1] of the [n] object channels, in channel order. *)
Theorem prob_to_mask_labels (shape0 cutoff : Z) (obj_pred_class : list Z)
    (am : list (list Z)) :
  prob_to_mask shape0 cutoff obj_pred_class am =
    map (map (channel_label shape0 cutoff obj_pred_class)) am ∧
  shape (prob_to_mask shape0 cutoff obj_pred_class am) = shape am ∧
  ∀ a, (-1 ≤ channel_label shape0 cutoff obj_pred_class a
        < Z.of_nat (count 1 obj_pred_class))%Z.
Proof.
  assert (prob_to_mask shape0 cutoff obj_pred_class am =
          map (map (channel_label shape0 cutoff obj_pred_class)) am) as Heq.
  { unfold prob_to_mask. rewrite relabel_loop_px. apply map_map_ext. intros a.
    destruct (valid_from_index cutoff (shape0 - cutoff) cutoff obj_pred_class
                (a + cutoff)) as [Hnd Hidx].
    cbv zeta in Hnd, Hidx. fold (valid_ids shape0 cutoff obj_pred_class) in Hnd, Hidx.
    rewrite relabel_px_index, Hidx by done. clear Hidx. unfold channel_label.
    replace (a + cutoff - cutoff - cutoff)%Z with (a - cutoff)%Z by lia.
    destruct (decide (cutoff ≤ a < shape0)%Z) as [Hr|Hr].
    - destruct (decide (cutoff + cutoff ≤ a + cutoff < cutoff + cutoff + (shape0 - cutoff))%Z);
        [|lia].
      destruct (obj_pred_class !! Z.to_nat (a - cutoff)) as [c|]; [|done].
      by destruct (decide (c = 1%Z)).
    - destruct (decide (cutoff + cutoff ≤ a + cutoff < cutoff + cutoff + (shape0 - cutoff))%Z);
        [lia|done]. }
  split; [done|]. split.
  - rewrite Heq. unfold shape. rewrite map_map. apply map_ext. intros row.
    by rewrite length_map.
  - intros a. unfold channel_label.
    destruct (decide (cutoff ≤ a < shape0)%Z) as [Hr|Hr]; [|lia].
    destruct (obj_pred_class !! Z.to_nat (a - cutoff)) as [c|] eqn:Ec; [|lia].
    destruct (decide (c = 1%Z)) as [->|Hc]; [|lia].
    pose proof (count_take_lt _ _ Ec). lia.
Qed.
End Masks.

(** ** The further properties on examples *)

Example prob_to_mask_example :
  prob_to_mask 5 2 [1; 0; 1]%Z [[0; 2; 3; 4]; [4; 4; 2; 1]]%Z =
  [[-1; 0; -1; 1]; [1; 1; 0; -1]]%Z.
Proof. reflexivity. Qed.

Example squash_masks_example :
  squash_masks [[(); ()]; [(); ()]]
    [[[true; false]; [false; false]]; [[true; true]; [false; false]]] [5; 7]%Z =
  Ret [[7; 7]; [-1; -1]]%Z.
Proof. reflexivity. Qed.

Example full_voe_two_frames :
  (full_voe grid_dist Z.gtb stub_net still_object silent_plot 0%Z two_frames).2 =
  [FrameLine 0; Figure 0 (PyArr [[false]]); FrameLine 1; Figure 1 (PyArr [[false]])].
Proof. vm_compute. reflexivity. Qed.

Lemma filter_inputs_any_lists_witness :
  _filter_inputs [] [7%Z] [origin] fresh_world = (Ret ([], [7%Z], [origin]), fresh_world) ∧
  ∃ new_l out,
    _filter_inputs [1; 2]%Z [7; 7; 7; 7]%Z [origin; origin] fresh_world =
      (Ret new_l, fresh_world) ∧
    new_l = unzip3 out ∧ length out ≤ 2.
Proof.
  split.
  - apply (filter_inputs_any_lists fresh_world [] [7%Z] [origin]). reflexivity.
  - destruct (proj2 (filter_inputs_any_lists fresh_world [1; 2]%Z [7; 7; 7; 7]%Z
                      [origin; origin]))
      as (new_l & out & Hrun & Heq & _ & Hlen & _); [discriminate|].
    exists new_l, out. split; [exact Hrun|]. split; [exact Heq|exact Hlen].
Defined.

Lemma training_set_latest_first_witness :
  _get_inputs scene_world = (Ret (Some scene_inputs), scene_world) ∧
  StronglySorted (λ a b : Z, (b ≤ a)%Z) [4; 3; 2; 1; 0]%Z.
Proof.
  assert (_get_inputs scene_world = (Ret (Some scene_inputs), scene_world)) as Hin
    by (vm_compute; reflexivity).
  split; [exact Hin|].
  destruct (training_set_latest_first scene_world scene_inputs Hin)
    as (_ & _ & _ & Hsorted & _).
  exact Hsorted.
Defined.

Lemma relevance_mask_eligible_witness :
  let r := predict stub_net 5 scene_world in
  r = (Ret (Some ([2; 1]%Z, [origin; origin], [false; true])), r.2) ∧
  ∃ b, [false; true] !! 1 = Some b ∧ (b = true ↔ eligible scene_world 1).
Proof.
  intros r.
  assert (r = (Ret (Some ([2; 1]%Z, [origin; origin], [false; true])), r.2)) as Hp
    by (vm_compute; reflexivity).
  split; [exact Hp|].
  destruct (relevance_mask_eligible stub_net 5 scene_world _ _ _ _ Hp) as (_ & _ & Hm).
  apply (Hm 1 1%Z). reflexivity.
Defined.

Lemma undeterminable_iff_witness :
  (∀ i, ¬ eligible fresh_world i) ∧
  detect grid_dist Z.gtb stub_net 5 [] [] fresh_world = (Ret None, fresh_world).
Proof.
  assert (∀ i, ¬ eligible fresh_world i) as Hno.
  { intros i (_ & _ & Hpos). vm_compute in Hpos. discriminate. }
  split; [exact Hno|].
  exact (proj2 (undeterminable_iff grid_dist Z.gtb stub_net 5 [] [] fresh_world) Hno).
Defined.

Lemma violations_only_eligible_witness :
  let r := detect grid_dist Z.gtb stub_net 5 [(1, 0, 0)%Z] [1%Z] scene_world in
  r = (Ret (Some [PositionViolation 1 origin (1, 0, 0)%Z]), r.2) ∧
  eligible scene_world 1.
Proof.
  intros r.
  assert (r = (Ret (Some [PositionViolation 1 origin (1, 0, 0)%Z]), r.2)) as Hd
    by (vm_compute; reflexivity).
  split; [exact Hd|].
  apply (violations_only_eligible grid_dist Z.gtb stub_net _ _ _ _ _ _ Hd
           (PositionViolation 1 origin (1, 0, 0)%Z)).
  left.
Defined.

Lemma violations_distinct_witness :
  let r := detect grid_dist Z.gtb stub_net 5 [(1, 0, 0)%Z] [1%Z] scene_world in
  r = (Ret (Some [PositionViolation 1 origin (1, 0, 0)%Z]), r.2) ∧
  NoDup (map object_id [PositionViolation 1 origin (1, 0, 0)%Z]).
Proof.
  intros r.
  assert (r = (Ret (Some [PositionViolation 1 origin (1, 0, 0)%Z]), r.2)) as Hd
    by (vm_compute; reflexivity).
  split; [exact Hd|].
  exact (proj1 (proj2 (violations_distinct grid_dist Z.gtb stub_net _ _ _ _ _ _ Hd))).
Defined.

Lemma detect_errors_witness :
  (detect grid_dist Z.gtb stub_net 5 [] [1%Z] scene_world).1 = Raise IndexError ∧
  ∃ viols, (detect grid_dist Z.gtb stub_net 5 [origin] [1%Z] scene_world).1 = Ret viols.
Proof.
  split.
  - destruct (detect_errors grid_dist Z.gtb stub_net 5 [] [1%Z] scene_world) as (Honly & _).
    destruct (detect grid_dist Z.gtb stub_net 5 [] [1%Z] scene_world).1 as [v|e] eqn:E.
    + vm_compute in E. discriminate.
    + by destruct (Honly e eq_refl) as [-> _].
  - apply (detect_errors grid_dist Z.gtb stub_net 5 [origin] [1%Z] scene_world).
    simpl. lia.
Defined.

Lemma registry_covers_history_witness :
  registry_covers scene_world ∧
  ∀ i, i ∈ scene_inputs.1.2 → i ∈ all_ids (self scene_world).
Proof.
  destruct (registry_covers_history (Pos:=Vec3) (D:=Z) grid_dist Z.gtb stub_net)
    as (Hinit & Hrec & _ & Htrain).
  assert (∀ calls (w : World Vec3 Z),
            registry_covers w → registry_covers (record_all calls w).2) as Hall.
  { induction calls as [|[[[time ids] pos] present] calls IH]; intros w Hw; [done|].
    simpl. unfold bind. specialize (Hrec time ids pos present w Hw).
    destruct (record_obs time ids pos present w) as [[[]|e] w1]; simpl in *;
      [by apply IH|done]. }
  assert (registry_covers scene_world) as Hcov by apply Hall, Hinit.
  split; [exact Hcov|]. intros i Hi.
  apply (Htrain scene_world scene_inputs Hcov); [vm_compute; reflexivity|exact Hi].
Defined.

Lemma heatmap_of_positions_witness :
  forallb is_position [PositionViolation 1 origin origin] = true ∧
  make_voe_heatmap (Some [PositionViolation 1 origin origin]) [[1; 2]]%Z =
  Ret (PyArr [[true; false]]).
Proof.
  assert (forallb is_position [PositionViolation 1 origin origin] = true) as Hpos
    by reflexivity.
  split; [exact Hpos|].
  exact (proj1 (heatmap_of_positions (Some [PositionViolation 1 origin origin])
                  [[1; 2]]%Z Hpos)).
Defined.

Lemma heatmap_after_presence_witness :
  forallb is_position (@nil (Violation Vec3)) = true ∧
  make_voe_heatmap (Some [PresenceViolation 1 origin; PresenceViolation 2 origin])
    [[1; 2]]%Z = Ret PyNone.
Proof.
  split; [reflexivity|].
  exact (heatmap_after_presence [] [PresenceViolation 2 origin] 1 origin [[1; 2]]%Z
           eq_refl).
Defined.

Lemma full_voe_history_witness :
  let r := full_voe grid_dist Z.gtb stub_net still_object silent_plot 0%Z two_frames in
  r.1.1 = Ret tt ∧ (frame_history (self r.1.2)).*1 = [0; 1]%Z ∧
  r.1.1 ≠ Raise AssertionError.
Proof.
  intros r.
  assert (r.1.1 = Ret tt) as Hret by (vm_compute; reflexivity).
  split; [exact Hret|].
  destruct (full_voe_history grid_dist Z.gtb stub_net still_object silent_plot 0%Z
              two_frames)
    as (j & recs & _ & _ & _ & Hkeys & _ & _ & Hj & _ & Hassert).
  fold r in Hkeys, Hj, Hassert. split.
  - rewrite Hkeys, (Hj Hret). reflexivity.
  - apply Hassert; discriminate.
Defined.

Lemma full_voe_first_frame_witness :
  let r := full_voe grid_dist Z.gtb stub_net still_object silent_plot 0%Z two_frames in
  length (net_calls r.1.2) ≤ 1 ∧
  ∃ ext, r.2 = [FrameLine 0; Figure 0 (PyArr (zeros_like [[1%Z]]))] ++ ext.
Proof.
  intros r.
  destruct (full_voe_first_frame grid_dist Z.gtb stub_net still_object silent_plot 0%Z
              two_frames) as (Hcalls & Hfirst).
  split; [exact Hcalls|].
  apply (Hfirst tt [[1%Z]] ([1%Z], [origin], [true])); try reflexivity.
  discriminate.
Defined.

Lemma squash_masks_last_wins_witness :
  ∃ out,
    squash_masks [[(); ()]; [(); ()]]
      [[[true; false]; [false; false]]; [[true; true]; [false; false]]] [5; 7]%Z =
    Ret out ∧
    pixel out 0 0 = Some 7%Z ∧ pixel out 1 0 = Some (-1)%Z.
Proof.
  destruct (proj2 (squash_masks_last_wins [[(); ()]; [(); ()]]
      [[[true; false]; [false; false]]; [[true; true]; [false; false]]] [5; 7]%Z))
    as (out & Hrun & _ & Hpix).
  { repeat constructor. }
  exists out. split; [exact Hrun|]. split.
  - apply (proj2 (Hpix 0 0 ltac:(by eexists))
             [([[true; false]; [false; false]], 5%Z)]
             [[true; true]; [false; false]] 7%Z []); [reflexivity..|].
    intros p Hp. by apply elem_of_nil in Hp.
  - apply (proj1 (Hpix 1 0 ltac:(by eexists))).
    intros p Hp. simpl in Hp.
    apply elem_of_cons in Hp as [->|Hp]; [reflexivity|].
    apply list_elem_of_singleton in Hp as ->. reflexivity.
Defined.
